(** * TrackUI download core: a shallow embedding of the queue scheduler and
  job runner of [app.py] and of the GoFile resolver and fetcher of
  [gofile_downloader.py], with the properties of the specification that
  were checked against them.

  The file has two parts.  Part I holds the definitions, translated from
  the Python sources function by function; Part II holds the theorems.

  Conventions.
  - Python [str] values are [string]s; Python [int]s are [nat] where the
    code only counts upwards from zero and [Z] elsewhere.
  - A Python [dict] used as a map is a [gmap]; a [list] is a [list].
  - Everything the code obtains from outside (HTTP replies, the clock, the
    lines a subprocess prints, the moment another thread acts) is an
    explicit input of the corresponding definition. *)

From Stdlib Require Import ZArith Ascii String List Lia.
From stdpp Require Import base tactics option list sorting gmap strings pretty.

Local Open Scope string_scope.

(* ===================================================================== *)
(** * Part I.  Definitions                                                *)
(* ===================================================================== *)

(** ** Python string primitives used by the sources *)

Module PyStr.

(** [len(s)] *)
Definition len (s : string) : nat := String.length s.

(** [s[:n]] for [0 <= n] *)
Fixpoint take (n : nat) (s : string) : string :=
  match n, s with
  | S n', String c s' => String c (take n' s')
  | _, _ => ""
  end.

(** [s[n:]] for [0 <= n] *)
Fixpoint drop (n : nat) (s : string) : string :=
  match n, s with
  | S n', String _ s' => drop n' s'
  | _, _ => s
  end.

(** [s[i:i+1]]: the character at [i], if any *)
Fixpoint get (i : nat) (s : string) : option ascii :=
  match s, i with
  | "", _ => None
  | String c _, 0 => Some c
  | String _ s', S i' => get i' s'
  end.

(** [s.rfind(c)] for a one-character needle: the highest index holding
    [c], or [-1]. *)
Fixpoint rfind (c : ascii) (s : string) : Z :=
  match s with
  | "" => (-1)%Z
  | String a s' =>
      let r := rfind c s' in
      if (0 <=? r)%Z then (r + 1)%Z
      else if Ascii.eqb a c then 0%Z else (-1)%Z
  end.

(** [s.startswith(p)] *)
Fixpoint startswith (p s : string) : bool :=
  match p, s with
  | "", _ => true
  | String a p', String b s' => Ascii.eqb a b && startswith p' s'
  | String _ _, "" => false
  end.

(** [s.endswith(c)] for a one-character suffix *)
Fixpoint endswith_char (c : ascii) (s : string) : bool :=
  match s with
  | "" => false
  | String a "" => Ascii.eqb a c
  | String _ s' => endswith_char c s'
  end.

(** [p in s] (substring test) *)
Fixpoint contains (p s : string) : bool :=
  startswith p s ||
  match s with
  | "" => false
  | String _ s' => contains p s'
  end.

(** [s.rstrip(c)] for a one-character set *)
Fixpoint rstrip_char (c : ascii) (s : string) : string :=
  match s with
  | "" => ""
  | String a s' =>
      match rstrip_char c s' with
      | "" => if Ascii.eqb a c then "" else String a ""
      | r => String a r
      end
  end.

(** [s.split(c)] for a one-character separator: always at least one
    field, empty fields kept. *)
Fixpoint split_char (c : ascii) (s : string) : list string :=
  match s with
  | "" => [""]
  | String a s' =>
      if Ascii.eqb a c then "" :: split_char c s'
      else match split_char c s' with
           | f :: fs => String a f :: fs
           | [] => [String a ""]
           end
  end.

(** [xs.index(x)]: position of the first element equal to [x] *)
Fixpoint index_of (x : string) (xs : list string) : option nat :=
  match xs with
  | [] => None
  | y :: ys => if String.eqb x y then Some 0
               else option_map S (index_of x ys)
  end.

(** [c.lower()] and [s.lower()] on ASCII letters *)
Definition lower_char (c : ascii) : ascii :=
  let n := nat_of_ascii c in
  if (65 <=? n)%nat && (n <=? 90)%nat then ascii_of_nat (n + 32) else c.

Fixpoint lower (s : string) : string :=
  match s with
  | "" => ""
  | String c s' => String (lower_char c) (lower s')
  end.

(** [s.strip()]: white space removed at both ends (the ASCII white space
    characters) *)
Fixpoint lstrip (s : string) : string :=
  match s with
  | String c s' => if Ascii.is_space c then lstrip s' else s
  | "" => ""
  end.

Fixpoint rstrip (s : string) : string :=
  match s with
  | "" => ""
  | String a s' =>
      match rstrip s' with
      | "" => if Ascii.is_space a then "" else String a ""
      | r => String a r
      end
  end.

Definition strip (s : string) : string := rstrip (lstrip s).

(** [str(n)] for a non-negative [int] *)
Definition str_nat (n : nat) : string := pretty n.

(** [str(z)] for any [int] *)
Definition str_Z (z : Z) : string := pretty z.

(** [c in s] for a one-character [c] *)
Fixpoint has_char (c : ascii) (s : string) : bool :=
  match s with
  | "" => false
  | String a s' => Ascii.eqb a c || has_char c s'
  end.

(** [sep.join(xs)] for a one-character separator *)
Fixpoint join_char (c : ascii) (xs : list string) : string :=
  match xs with
  | [] => ""
  | [x] => x
  | x :: xs' => x +:+ String c (join_char c xs')
  end.

End PyStr.

(** ** [os.path] on a POSIX host ([posixpath], [genericpath]) *)

Module PosixPath.
Import PyStr.

Definition sep : ascii := "/"%char.
Definition extsep : ascii := "."%char.

(** [posixpath.join(a, b)]: an absolute [b] replaces [a]; otherwise [b] is
    appended, after a separator unless [a] is empty or already ends with
    one. *)
Definition join (a b : string) : string :=
  if startswith "/" b then b
  else if (len a =? 0)%nat || endswith_char sep a then a +:+ b
  else a +:+ "/" +:+ b.

(** [posixpath.basename(p)]: [p[p.rfind('/') + 1:]] *)
Definition basename (p : string) : string :=
  drop (Z.to_nat (rfind sep p + 1)) p.

(** [sep * n] *)
Fixpoint seps (n : nat) : string :=
  match n with 0 => "" | S n' => String sep (seps n') end.

(** [posixpath.dirname(p)] *)
Definition dirname (p : string) : string :=
  let head := take (Z.to_nat (rfind sep p + 1)) p in
  if negb (len head =? 0)%nat && negb (String.eqb head (seps (len head)))
  then rstrip_char sep head
  else head.

(** The loop of [genericpath._splitext] that skips leading dots of the
    last component: it returns [true] as soon as a character before the
    last dot is not a dot.  [n] bounds the iterations
    ([dotIndex - filenameIndex]). *)
Fixpoint has_non_dot (p : string) (filenameIndex n : nat) : bool :=
  match n with
  | 0 => false
  | S n' =>
      match get filenameIndex p with
      | Some c => if Ascii.eqb c extsep then has_non_dot p (S filenameIndex) n'
                  else true
      | None => true
      end
  end.

(** [posixpath.splitext(p)] *)
Definition splitext (p : string) : string * string :=
  let sepIndex := rfind sep p in
  let dotIndex := rfind extsep p in
  if (sepIndex <? dotIndex)%Z then
    let filenameIndex := Z.to_nat (sepIndex + 1) in
    if has_non_dot p filenameIndex (Z.to_nat dotIndex - filenameIndex)
    then (take (Z.to_nat dotIndex) p, drop (Z.to_nat dotIndex) p)
    else (p, "")
  else (p, "").

End PosixPath.

(** ** [gofile_downloader.py] *)

Module Gofile.
Import PyStr PosixPath.

(** *** HTTP requests: [GoFileDownloader._get_response] *)

(** What one call of [self._session.get] does. *)
Inductive get_try (R : Type) : Type :=
| TryTimeout                 (* raises [requests.Timeout] *)
| TryError (msg : string)    (* raises another exception, [str(e) = msg] *)
| TryOk (r : R).             (* returns a [Response] *)
Arguments TryTimeout {R}.
Arguments TryError {R} msg.
Arguments TryOk {R} r.

(** [_get_response]: up to [number_retries] calls; the first response is
    returned; every exception other than a timeout is recorded in
    [self._errors].  [tries i] is the outcome of the [i]-th call. *)
Fixpoint get_response_from {R} (tries : nat -> get_try R) (i n : nat)
    (errors : list string) : option R * list string :=
  match n with
  | 0 => (None, errors)
  | S n' =>
      match tries i with
      | TryOk r => (Some r, errors)
      | TryTimeout => get_response_from tries (S i) n' errors
      | TryError msg => get_response_from tries (S i) n' (errors ++ [msg])
      end
  end.

Definition get_response {R} (tries : nat -> get_try R)
    (number_retries : nat) (errors : list string) : option R * list string :=
  get_response_from tries 0 number_retries errors.

(** Truth value of a [requests.Response] in [if not response]:
    [Response.__bool__] is [Response.ok], which is [False] exactly when
    [raise_for_status] raises, that is for [400 <= status_code < 600]. *)
Definition response_truthy (status_code : Z) : bool :=
  negb ((400 <=? status_code)%Z && (status_code <? 600)%Z).

(** *** The naming-collision table *)

(** [_resolve_naming_collision]: the result path and the updated
    [pathing_count] (the dict is updated in place by the source). *)
Definition resolve_naming_collision (pathing_count : gmap string nat)
    (parent_dir child_name : string) (is_dir : bool)
    : string * gmap string nat :=
  let filepath := join parent_dir child_name in
  let pathing_count :=
    match pathing_count !! filepath with
    | Some n => <[filepath := n + 1]> pathing_count
    | None => <[filepath := 0]> pathing_count
    end in
  let n := default 0 (pathing_count !! filepath) in
  if (0 <? n)%nat then
    if is_dir then (filepath +:+ "(" +:+ str_nat n +:+ ")", pathing_count)
    else
      let '(root, ext) := splitext filepath in
      (root +:+ "(" +:+ str_nat n +:+ ")" +:+ ext, pathing_count)
  else (filepath, pathing_count).

(** One call of [_resolve_naming_collision] by its arguments. *)
Record lookup := {
  l_parent_dir : string;
  l_child_name : string;
  l_is_dir : bool;
}.

(** The candidate path of a call: [path.join(parent_dir, child_name)]. *)
Definition candidate (q : lookup) : string :=
  join (l_parent_dir q) (l_child_name q).

(** The calls [qs] made one after the other on one shared table: the paths
    they return, in order, and the table afterwards. *)
Fixpoint resolve_all (pathing_count : gmap string nat) (qs : list lookup)
    : list string * gmap string nat :=
  match qs with
  | [] => ([], pathing_count)
  | q :: qs' =>
      let '(p, pathing_count) :=
        resolve_naming_collision pathing_count
          (l_parent_dir q) (l_child_name q) (l_is_dir q) in
      let '(ps, pathing_count) := resolve_all pathing_count qs' in
      (p :: ps, pathing_count)
  end.

(** How many of the calls [qs] have the candidate path [p]. *)
Definition occurrences (p : string) (qs : list lookup) : nat :=
  length (filter (fun q => candidate q = p) qs).

(** The specification's numbering of a reused path: ["(n)"] before the
    extension of a file, at the end of a directory. *)
Definition numbered (p : string) (n : nat) (is_dir : bool) : string :=
  if is_dir then p +:+ "(" +:+ str_nat n +:+ ")"
  else (splitext p).1 +:+ "(" +:+ str_nat n +:+ ")" +:+ (splitext p).2.

(** The specification's result for the occurrence number [n] (from 0) of
    the candidate path [p]. *)
Definition expected_path (p : string) (n : nat) (is_dir : bool) : string :=
  match n with
  | 0 => p
  | S _ => numbered p n is_dir
  end.

(** The table after the calls [seen]: a path met [S k] times maps to [k]. *)
Definition table_of (seen : list lookup) (pc : gmap string nat) : Prop :=
  forall p, pc !! p = match occurrences p seen with 0 => None | S k => Some k end.

(** A table [pc'] is a later state of [pc]: every registered path is still
    registered, with a counter that is not smaller. *)
Definition table_le (pc pc' : gmap string nat) : Prop :=
  forall p k, pc !! p = Some k -> exists k', pc' !! p = Some k' /\ k <= k'.

(** *** The content tree *)

(** One value of [self._files_info]; the key of the [k]-th registered
    entry is [str(k)], so the dict is kept as the list of its values in
    insertion order. *)
Record file_entry := {
  fe_path : string;
  fe_filename : string;
  fe_link : string;
}.

(** One element of [data["children"]]. *)
Record child := {
  c_type : option string;
  c_id : string;
  c_name : option string;
  c_link : option string;
}.

(** [json_response["data"]]. *)
Record content_data := {
  d_has_password : bool;               (* ["password" in data] *)
  d_passwordStatus : option string;
  d_type : option string;
  d_name : option string;
  d_link : option string;
  d_children : list child;             (* [children.values()], in order *)
}.

Inductive json_result :=
| JsonError (msg : string)             (* [response.json()] raises *)
| JsonValue (status : option string) (data : content_data).

Record api_response := {
  ar_status_code : Z;
  ar_json : json_result;
}.

(** Everything the resolver observes from outside. *)
Record world := {
  (* the calls of [session.get] for a content URL *)
  w_api : string -> nat -> get_try api_response;
  (* [self._stop_event.is_set()] at the [k]-th test of the tree walk *)
  w_stop : nat -> bool;
  (* the calls of [session.post] of the guest-account creation:
     timeout, exception, or a reply with [status == "ok"] or not *)
  w_account : nat -> get_try bool;
  (* [sha256(password).hexdigest()] *)
  w_sha256 : string -> string;
  (* the worker-pool phase of [download]: from the registered files and
     the error list to [_files_downloaded] and the error list after it *)
  w_pool : list file_entry -> list string -> nat * list string;
}.

(** The mutable state of a resolve: the fields of [self] that the tree
    walk writes, the shared [pathing_count] dict, the directories handed
    to [makedirs], and the number of stop tests made so far. *)
Record bstate := {
  files_info : list file_entry;
  errors : list string;
  pathing_count : gmap string nat;
  made_dirs : list string;
  stop_checks : nat;
}.

Definition init_bstate (errors : list string) : bstate :=
  {| files_info := []; errors := errors; pathing_count := ∅;
     made_dirs := []; stop_checks := 0 |}.

Definition add_error (msg : string) (st : bstate) : bstate :=
  {| files_info := files_info st; errors := errors st ++ [msg];
     pathing_count := pathing_count st; made_dirs := made_dirs st;
     stop_checks := stop_checks st |}.

Definition set_errors (errs : list string) (st : bstate) : bstate :=
  {| files_info := files_info st; errors := errs;
     pathing_count := pathing_count st; made_dirs := made_dirs st;
     stop_checks := stop_checks st |}.

Definition makedirs (p : string) (st : bstate) : bstate :=
  {| files_info := files_info st; errors := errors st;
     pathing_count := pathing_count st; made_dirs := made_dirs st ++ [p];
     stop_checks := stop_checks st |}.

Definition tick_stop (st : bstate) : bstate :=
  {| files_info := files_info st; errors := errors st;
     pathing_count := pathing_count st; made_dirs := made_dirs st;
     stop_checks := S (stop_checks st) |}.

(** The state [st'] comes after [st] in a walk: its table is a later state
    of the table of [st]. *)
Definition later (st st' : bstate) : Prop :=
  table_le (pathing_count st) (pathing_count st').

(** [_register_file] *)
Definition register_file (filepath file_url : string) (st : bstate) : bstate :=
  {| files_info := files_info st ++
       [{| fe_path := dirname filepath; fe_filename := basename filepath;
           fe_link := file_url |}];
     errors := errors st; pathing_count := pathing_count st;
     made_dirs := made_dirs st; stop_checks := stop_checks st |}.

(** A call of [_resolve_naming_collision] on the shared table. *)
Definition resolve (parent_dir child_name : string) (is_dir : bool)
    (st : bstate) : string * bstate :=
  let '(p, pc) :=
    resolve_naming_collision (pathing_count st) parent_dir child_name is_dir in
  (p, {| files_info := files_info st; errors := errors st;
         pathing_count := pc; made_dirs := made_dirs st;
         stop_checks := stop_checks st |}).

Definition content_url (content_id : string) (password_hash : option string)
    : string :=
  let url := "https://api.gofile.io/contents/" +:+ content_id +:+
             "?cache=true&sortField=createTime&sortDirection=1" in
  match password_hash with
  | Some h => if (len h =? 0)%nat then url else url +:+ "&password=" +:+ h
  | None => url
  end.

Definition opt_str (o : option string) : string :=
  match o with Some s => s | None => "None" end.

Definition is_folder (t : option string) : bool :=
  match t with Some s => String.eqb s "folder" | None => false end.

(** The first statements of the folder case of [_build_content_tree]: the
    folder name is resolved against the shared table, the result is replaced
    by [parent_dir] when [parent_dir] is the root of the tree, and the
    directory is created. *)
Definition enter_folder (parent_dir content_id folder_name : string)
    (st : bstate) : string * bstate :=
  let '(absolute_path, st) := resolve parent_dir folder_name true st in
  let absolute_path :=
    if String.eqb (basename parent_dir) content_id
    then parent_dir else absolute_path in
  (absolute_path, makedirs absolute_path st).

(** The [for child in children.values()] loop of [_build_content_tree];
    [recurse] is the recursive call on a child folder. *)
Fixpoint children_loop (stop : nat -> bool)
    (recurse : string -> bstate -> option bstate)
    (absolute_path : string) (cs : list child) (st : bstate) : option bstate :=
  match cs with
  | [] => Some st
  | c :: cs' =>
      if stop (stop_checks st) then Some (tick_stop st)
      else
        let st := tick_stop st in
        if is_folder (c_type c) then
          match recurse (c_id c) st with
          | None => None
          | Some st' => children_loop stop recurse absolute_path cs' st'
          end
        else
          let '(filepath, st) :=
            resolve absolute_path (default "unknown" (c_name c)) false st in
          children_loop stop recurse absolute_path cs'
            (register_file filepath (default "" (c_link c)) st)
  end.

Section Build.
Variable w : world.
Variable number_retries : nat.
Variable password_hash : option string.

(** [_build_content_tree].  The recursion follows the replies of the
    server, so it is bounded by [fuel]: [None] means that the bound was
    reached, [Some st] that the call returned in state [st]. *)
Fixpoint build_content_tree (fuel : nat) (parent_dir content_id : string)
    (st : bstate) : option bstate :=
  match fuel with
  | 0 => None
  | S fuel' =>
      let url := content_url content_id password_hash in
      let '(response, errs) :=
        get_response (w_api w url) number_retries (errors st) in
      let st := set_errors errs st in
      match response with
      | None => Some (add_error ("Failed to fetch content from " +:+ url) st)
      | Some r =>
        if negb (response_truthy (ar_status_code r)) then
          Some (add_error ("Failed to fetch content from " +:+ url) st)
        else
        match ar_json r with
        | JsonError e =>
            Some (add_error ("Failed to parse response: " +:+ e) st)
        | JsonValue status data =>
          if negb (bool_decide (status = Some "ok")) then
            Some (add_error ("API error: " +:+ opt_str status) st)
          else if d_has_password data &&
                  negb (bool_decide (d_passwordStatus data = Some "passwordOk"))
          then
            Some (add_error
              "Content is password protected. Please provide the correct password." st)
          else if negb (is_folder (d_type data)) then
            (* single file *)
            let '(filepath, st) :=
              resolve parent_dir (default "unknown" (d_name data)) false st in
            let st := makedirs (dirname filepath) st in
            Some (register_file filepath (default "" (d_link data)) st)
          else
            (* folder *)
            let '(absolute_path, st) :=
              enter_folder parent_dir content_id
                (default "unknown" (d_name data)) st in
            children_loop (w_stop w)
              (fun child_id st =>
                 build_content_tree fuel' absolute_path child_id st)
              absolute_path (d_children data) st
        end
      end
  end.
End Build.

(** *** The chunked fetcher: [_download_file] *)

(** A response header that the code passes to [int]: missing or empty,
    a text on which [int] raises, or an integer. *)
Inductive header :=
| HAbsent
| HBad (exc : string)
| HInt (v : Z).

(** What the body iterator yields next: a chunk of [size] bytes (with the
    value of [stop_event.is_set()] tested before it is written), or an
    exception. *)
Inductive chunk_event :=
| Chunk (stop_set : bool) (size : nat)
| ChunkTimeout
| ChunkError (msg : string).

Record dl_response := {
  status_code : Z;
  content_length : header;
  content_range : header;      (* the part after the last ["/"] *)
  chunks : list chunk_event;
}.

(** What one iteration of the retry loop observes. *)
Record attempt := {
  at_stop : bool;                          (* [stop_event.is_set()] at its start *)
  at_part : option nat;                    (* size of the [.part] file, if it is a file *)
  at_get : nat -> get_try dl_response;     (* the calls of [session.get] *)
  at_open_error : option string;           (* [makedirs] or [open] raises *)
  at_move_error : option string;           (* [move] raises *)
}.

(** The fields of [self] that [_download_file] writes, and the number of
    calls of [_get_response] it has made. *)
Record dstate := {
  ds_errors : list string;
  ds_files_downloaded : nat;
  ds_requests : nat;
}.

Definition ds_add_error (msg : string) (st : dstate) : dstate :=
  {| ds_errors := ds_errors st ++ [msg];
     ds_files_downloaded := ds_files_downloaded st;
     ds_requests := ds_requests st |}.

Definition ds_requested (errs : list string) (st : dstate) : dstate :=
  {| ds_errors := errs;
     ds_files_downloaded := ds_files_downloaded st;
     ds_requests := S (ds_requests st) |}.

Definition ds_downloaded (st : dstate) : dstate :=
  {| ds_errors := ds_errors st;
     ds_files_downloaded := S (ds_files_downloaded st);
     ds_requests := ds_requests st |}.

Inductive stream_result :=
| StreamDone (downloaded : nat)
| StreamStopped
| StreamTimeout
| StreamError (msg : string).

(** The loop over [response.iter_content]. *)
Fixpoint stream (cs : list chunk_event) (downloaded : nat) : stream_result :=
  match cs with
  | [] => StreamDone downloaded
  | Chunk stop_set size :: cs' =>
      if stop_set then StreamStopped else stream cs' (downloaded + size)
  | ChunkTimeout :: _ => StreamTimeout
  | ChunkError msg :: _ => StreamError msg
  end.

(** [status_code in (403, 404, 405, 500)] *)
Definition fatal_status (status_code : Z) : bool :=
  ((status_code =? 403) || (status_code =? 404) ||
   (status_code =? 405) || (status_code =? 500))%Z.

(** The status that the request of an attempt expects: 200 or 206 without a
    partial file, 206 with one. *)
Definition expected_status (part_size : nat) (status_code : Z) : bool :=
  if (part_size =? 0)%nat then ((status_code =? 200) || (status_code =? 206))%Z
  else (status_code =? 206)%Z.

Section DownloadFile.
Variable filename : string.            (* [file_info["filename"]] *)
Variable number_retries : nat.
Variable attempts : nat -> attempt.    (* the observations of iteration [i] *)

(** The [for attempt in range(self._number_retries)] loop of
    [_download_file], from iteration [i], with [n] iterations left.  The
    size of the [.part] file after the writes is the size before them plus
    the bytes written. *)
Fixpoint download_file_loop (i n : nat) (st : dstate) : bool * dstate :=
  match n with
  | 0 => (false, st)
  | S n' =>
      let a := attempts i in
      if at_stop a then (false, st)
      else
        let part_size := default 0 (at_part a) in
        let '(response, errs) :=
          get_response (at_get a) number_retries (ds_errors st) in
        let st := ds_requested errs st in
        let continue := download_file_loop (S i) n' in
        match response with
        | None => continue st
        | Some r =>
          if negb (response_truthy (status_code r)) then continue st
          else if fatal_status (status_code r) then
            (false, ds_add_error
               ("HTTP " +:+ str_Z (status_code r) +:+ " for " +:+ filename) st)
          else if (part_size =? 0)%nat &&
                  negb ((status_code r =? 200) || (status_code r =? 206))%Z
          then continue st
          else if (0 <? part_size)%nat && negb (status_code r =? 206)%Z
          then continue st
          else
            match (if (part_size =? 0)%nat then content_length r
                   else content_range r) with
            | HBad e =>
                continue (ds_add_error
                  ("Error downloading " +:+ filename +:+ ": " +:+ e) st)
            | h =>
              let total_size := match h with HInt v => v | _ => 0%Z end in
              if (total_size =? 0)%Z then
                (false, ds_add_error
                   ("Could not determine size for " +:+ filename) st)
              else
                match at_open_error a with
                | Some e =>
                    continue (ds_add_error
                      ("Error downloading " +:+ filename +:+ ": " +:+ e) st)
                | None =>
                  match stream (chunks r) part_size with
                  | StreamStopped => (false, st)
                  | StreamTimeout => continue st
                  | StreamError e =>
                      continue (ds_add_error
                        ("Error downloading " +:+ filename +:+ ": " +:+ e) st)
                  | StreamDone size =>
                      if (Z.of_nat size =? total_size)%Z then
                        match at_move_error a with
                        | Some e =>
                            continue (ds_add_error
                              ("Error downloading " +:+ filename +:+ ": " +:+ e) st)
                        | None => (true, ds_downloaded st)
                        end
                      else continue st
                  end
                end
            end
        end
  end.

(** [_download_file]; [existing] is the size of the destination file when
    it exists. *)
Definition download_file (existing : option nat) (st : dstate) : bool * dstate :=
  match existing with
  | Some (S _) => (true, ds_downloaded st)
  | _ => download_file_loop 0 number_retries st
  end.
End DownloadFile.

(** *** The pipeline: [download] *)

(** [_parse_content_id] *)
Definition parse_content_id (url : string) : option string :=
  let parts := split_char "/" (rstrip_char "/" url) in
  match index_of "d" parts with
  | Some d_index =>
      if (d_index + 1 <? length parts)%nat
      then Some (nth (d_index + 1) parts "")
      else None
  | None => None
  end.

(** The guest-account loop of [_set_account_token] (no token is passed by
    [download]): [TryOk b] is a reply whose [status] is ["ok"] or not. *)
Fixpoint set_account_token_from (tries : nat -> get_try bool) (i n : nat)
    (errors : list string) : bool * list string :=
  match n with
  | 0 => (false, errors)
  | S n' =>
      match tries i with
      | TryOk true => (true, errors)
      | TryOk false => set_account_token_from tries (S i) n' errors
      | TryTimeout => set_account_token_from tries (S i) n' errors
      | TryError e =>
          set_account_token_from tries (S i) n'
            (errors ++ ["Account creation failed: " +:+ e])
      end
  end.

Definition set_account_token (tries : nat -> get_try bool)
    (number_retries : nat) (errors : list string) : bool * list string :=
  set_account_token_from tries 0 number_retries errors.

(** [password_hash] of [download]: set when a non-empty password is given. *)
Definition hash_password (w : world) (password : option string)
    : option string :=
  match password with
  | Some p => if (len p =? 0)%nat then None else Some (w_sha256 w p)
  | None => None
  end.

(** The dict returned by [download]. *)
Record result := {
  success : bool;
  files_downloaded : nat;
  total_files : nat;
  res_errors : list string;
  message : string;
}.

(** [download].  [None]: the tree walk did not return within [fuel]
    nested calls. *)
Definition download (w : world) (fuel number_retries : nat)
    (url output_dir : string) (password : option string) : option result :=
  match parse_content_id url with
  | None | Some "" =>
      Some {| success := false; files_downloaded := 0; total_files := 0;
              res_errors := ["Invalid GoFile URL - could not extract content ID"];
              message := "Invalid GoFile URL" |}
  | Some content_id =>
      let '(ok, errs) := set_account_token (w_account w) number_retries [] in
      if negb ok then
        Some {| success := false; files_downloaded := 0; total_files := 0;
                res_errors := match errs with
                              | [] => ["Failed to create GoFile account"]
                              | _ => errs
                              end;
                message := "Authentication failed" |}
      else
        let password_hash := hash_password w password in
        let content_dir := join output_dir content_id in
        match build_content_tree w number_retries password_hash fuel
                content_dir content_id (init_bstate errs) with
        | None => None
        | Some st =>
            match files_info st with
            | [] =>
                match errors st with
                | _ :: _ =>
                    Some {| success := false; files_downloaded := 0;
                            total_files := 0; res_errors := errors st;
                            message := List.last (errors st) "No files found" |}
                | [] =>
                    Some {| success := true; files_downloaded := 0;
                            total_files := 0; res_errors := [];
                            message := "No files found in content" |}
                end
            | _ :: _ =>
                let total := length (files_info st) in
                let '(downloaded, errs') := w_pool w (files_info st) (errors st) in
                Some {| success := (0 <? downloaded)%nat ||
                                   match errs' with [] => true | _ => false end;
                        files_downloaded := downloaded;
                        total_files := total;
                        res_errors := errs';
                        message := "Downloaded " +:+ str_nat downloaded +:+ "/" +:+
                                   str_nat total +:+ " files" |}
            end
        end
  end.

(** The messages of the calls among [tries i], ..., [tries (i + n - 1)]
    that raise an exception other than a timeout, up to the first call that
    returns a response. *)
Fixpoint raised_before_response {R} (tries : nat -> get_try R) (i n : nat)
    : list string :=
  match n with
  | 0 => []
  | S n' =>
      match tries i with
      | TryOk _ => []
      | TryTimeout => raised_before_response tries (S i) n'
      | TryError msg => msg :: raised_before_response tries (S i) n'
      end
  end.

(** The bytes that the chunks [cs] carry. *)
Fixpoint chunk_bytes (cs : list chunk_event) : nat :=
  match cs with
  | Chunk _ size :: cs' => size + chunk_bytes cs'
  | _ :: cs' => chunk_bytes cs'
  | [] => 0
  end.

(** The announced size of the file that a response carries, as
    [_download_file] reads it: [Content-Length] without a partial file,
    the total of [Content-Range] with one. *)
Definition announced_size (part_size : nat) (r : dl_response) : header :=
  if (part_size =? 0)%nat then content_length r else content_range r.

(** What the iteration [k] of the retry loop of [_download_file] must have
    seen for the unit to be reported as downloaded by it. *)
Definition completes (number_retries : nat) (attempts : nat -> attempt)
    (k : nat) : Prop :=
  let a := attempts k in
  let part := default 0 (at_part a) in
  at_stop a = false /\ at_open_error a = None /\ at_move_error a = None /\
  exists r,
    (get_response (at_get a) number_retries []).1 = Some r /\
    expected_status part (status_code r) = true /\
    announced_size part r = HInt (Z.of_nat (part + chunk_bytes (chunks r))) /\
    0 < part + chunk_bytes (chunks r) /\
    Forall (fun c => exists n, c = Chunk false n) (chunks r).


(** [filepath] of [_download_file]:
    [path.join(file_info["path"], file_info["filename"])] *)
Definition entry_path (e : file_entry) : string :=
  join (fe_path e) (fe_filename e).



End Gofile.

(** ** [app.py]: the download engine *)

Module Queue.
Import PyStr.

(** *** Jobs *)

(** The values of [job['status']] (comment at [download_queue]). *)
Inductive job_status := Queued | Active | Paused | Completed | Failed.

#[global] Instance job_status_eq_dec : EqDecision job_status.
Proof. solve_decision. Defined.

(** [job['id']]: an integer from [get_next_queue_id], or the text built by
    the Telegram handlers. *)
Inductive job_id :=
| IdInt (n : Z)
| IdStr (s : string).

#[global] Instance job_id_eq_dec : EqDecision job_id.
Proof. solve_decision. Defined.

(** [datetime.now().isoformat()] *)
Definition timestamp := string.

(** A job dict.  [process] holds the handle of the [Popen] object. *)
Record job := {
  id : job_id;
  username : string;
  platform : string;
  url : option string;
  folder : option string;
  status : job_status;
  message : string;
  process : option nat;
  started_at : option timestamp;
  completed_at : option timestamp;
  files_downloaded : nat;
}.

Definition set_status (v : job_status) (j : job) : job :=
  {| id := id j; username := username j; platform := platform j;
     url := url j; folder := folder j; status := v; message := message j;
     process := process j; started_at := started_at j;
     completed_at := completed_at j; files_downloaded := files_downloaded j |}.

Definition set_message (v : string) (j : job) : job :=
  {| id := id j; username := username j; platform := platform j;
     url := url j; folder := folder j; status := status j; message := v;
     process := process j; started_at := started_at j;
     completed_at := completed_at j; files_downloaded := files_downloaded j |}.

Definition set_process (v : option nat) (j : job) : job :=
  {| id := id j; username := username j; platform := platform j;
     url := url j; folder := folder j; status := status j; message := message j;
     process := v; started_at := started_at j;
     completed_at := completed_at j; files_downloaded := files_downloaded j |}.

Definition set_started_at (v : option timestamp) (j : job) : job :=
  {| id := id j; username := username j; platform := platform j;
     url := url j; folder := folder j; status := status j; message := message j;
     process := process j; started_at := v;
     completed_at := completed_at j; files_downloaded := files_downloaded j |}.

Definition set_completed_at (v : option timestamp) (j : job) : job :=
  {| id := id j; username := username j; platform := platform j;
     url := url j; folder := folder j; status := status j; message := message j;
     process := process j; started_at := started_at j;
     completed_at := v; files_downloaded := files_downloaded j |}.

Definition set_files_downloaded (v : nat) (j : job) : job :=
  {| id := id j; username := username j; platform := platform j;
     url := url j; folder := folder j; status := status j; message := message j;
     process := process j; started_at := started_at j;
     completed_at := completed_at j; files_downloaded := v |}.

(** The dict literal of [add_to_queue]. *)
Definition new_job (i : job_id) (u p : string) (url folder : option string)
    (msg : string) : job :=
  {| id := i; username := u; platform := p; url := url; folder := folder;
     status := Queued; message := msg; process := None;
     started_at := None; completed_at := None; files_downloaded := 0 |}.

(** *** What the engine does to the outside *)

(** The three texts of [send_telegram_notification] at the end of
    [run_download], by their content. *)
Inductive notification :=
| NewFiles (display_username platform : string) (files_count : nat)
| UpToDate (display_username platform : string)
| Failure (display_username platform : string) (msg : string).

Inductive effect :=
| Terminate (pid : nat)                       (* [process.terminate()] *)
| Notify (n : notification)                   (* [send_telegram_notification] *)
| LastSync (username platform : string).      (* [update_user_last_sync] *)

(** *** The runner: [run_download] *)

(** Where a runner thread stands. *)
Inductive runner_pc :=
| RStart
    (* before [output_dir.mkdir] and [Popen] *)
| RReading (files_count : nat) (last_activity : Z) (pid : nat)
    (* in the [for line in iter(process.stdout.readline, '')] loop *)
| RFinally (files_count : option nat)
    (* the [try] block is left, the [finally] clause is pending;
       [files_count] is unbound when [Popen] raised *)
| RDone.

(** What a runner receives from outside at its next step.  Clock readings
    ([time.time()]) are in seconds. *)
Inductive rinput :=
| InMkdirFails
    (* [output_dir.mkdir] raises: the thread ends outside the [try] *)
| InPopenFails (msg : string)
    (* an exception inside the [try], before the loop *)
| InPopen (pid : nat) (t : Z)
    (* [Popen] returns; [last_activity = time.time()] reads [t] *)
| InLine (line : string) (t_read t_check : Z) (now : timestamp)
    (* [readline] returns [line]; the two [time.time()] calls of the
       iteration read [t_read] and [t_check]; [now] is what
       [datetime.now().isoformat()] would return *)
| InReadError (msg : string)
    (* [readline] raises *)
| InEof (returncode : Z) (sync_error : option string)
    (* [readline] returns [''], [process.wait()] returns; [sync_error] is
       set when [update_user_last_sync] raises *)
| InFinally (now : timestamp).
    (* the [finally] clause runs *)

Definition timeout_minutes : Z := 10.

(** The progress parsing of one stripped, non-empty output line. *)
Definition parse_line (line : string) (files_count : nat) (j : job)
    : nat * job :=
  if contains "Downloading" line || contains ".jpg" line ||
     contains ".mp4" line || contains ".png" line then
    let files_count := files_count + 1 in
    (files_count,
     set_message ("Downloaded " +:+ str_nat files_count +:+ " files...")
       (set_files_downloaded files_count j))
  else if contains "Skipping" line then
    (files_count, set_message (take 80 line) j)
  else if contains "error" (lower line) || contains "Error" line then
    (files_count, set_message ("Error: " +:+ take 60 line) j)
  else if (10 <? len line)%nat then
    (files_count, set_message (take 80 line) j)
  else (files_count, j).

(** [display_username] of the [finally] clause *)
Definition display_username (j : job) : string :=
  if String.eqb (platform j) "coomer" && contains "/" (username j) then
    nth 1 (split_char "/" (username j)) ""
  else username j.

(** The [finally] clause of [run_download].  With [files_count] unbound and
    a status of ['completed'] the clause raises before it notifies. *)
Definition run_finally (now : timestamp) (files_count : option nat) (j : job)
    : job * list effect :=
  let j := set_process None (set_completed_at (Some now) j) in
  match status j with
  | Completed =>
      match files_count with
      | Some n =>
          if (0 <? n)%nat
          then (j, [Notify (NewFiles (display_username j) (platform j) n)])
          else (j, [Notify (UpToDate (display_username j) (platform j))])
      | None => (j, [])
      end
  | _ => (j, [Notify (Failure (display_username j) (platform j) (message j))])
  end.

(** One step of a runner on its job dict [j], as the dict is when the step
    is taken.  The result is the new position, the dict after the writes of
    the step, and the outside effects, in order.  [None]: the input does
    not fit the position.  The command line of [gallery-dl] is not part of
    the model: the subprocess is known by what it prints and how it ends.
    The message that the coomer branch writes before the [try] is
    overwritten by ['Initializing gallery-dl...'] in the same step. *)
Definition runner_step (i : rinput) (pc : runner_pc) (j : job)
    : option (runner_pc * job * list effect) :=
  match pc, i with
  | RStart, InMkdirFails => Some (RDone, j, [])
  | RStart, InPopenFails msg =>
      let j := set_message "Initializing gallery-dl..." j in
      Some (RFinally None,
            set_message ("Error: " +:+ msg) (set_status Failed j), [])
  | RStart, InPopen pid t =>
      let j := set_message "Initializing gallery-dl..." j in
      Some (RReading 0 t pid, set_process (Some pid) j, [])
  | RReading files_count last_activity pid, InLine line t_read t_check now =>
      if bool_decide (status j = Paused) then
        Some (RFinally (Some files_count),
              set_message "Download paused" j, [Terminate pid])
      else
        let last_activity := t_read in
        let line := strip line in
        let '(files_count, j) :=
          if (0 <? len line)%nat then parse_line line files_count j
          else (files_count, j) in
        if (timeout_minutes * 60 <? t_check - last_activity)%Z then
          Some (RFinally (Some files_count),
                set_completed_at (Some now)
                  (set_message ("Timeout after " +:+ str_Z timeout_minutes +:+
                                " minutes of inactivity")
                     (set_status Failed j)),
                [Terminate pid])
        else Some (RReading files_count last_activity pid, j, [])
  | RReading files_count _ _, InReadError msg =>
      Some (RFinally (Some files_count),
            set_message ("Error: " +:+ msg) (set_status Failed j), [])
  | RReading files_count _ _, InEof returncode sync_error =>
      if (returncode =? 0)%Z then
        let j := set_message ("Completed! Downloaded " +:+ str_nat files_count
                              +:+ " files") (set_status Completed j) in
        match sync_error with
        | None => Some (RFinally (Some files_count), j,
                        [LastSync (username j) (platform j)])
        | Some msg =>
            Some (RFinally (Some files_count),
                  set_message ("Error: " +:+ msg) (set_status Failed j), [])
        end
      else
        Some (RFinally (Some files_count),
              set_message ("Failed with exit code " +:+ str_Z returncode)
                (set_status Failed j), [])
  | RFinally files_count, InFinally now =>
      let '(j, effs) := run_finally now files_count j in
      Some (RDone, j, effs)
  | _, _ => None
  end.

(** A whole execution of [run_download] on a job dict that no other thread
    writes meanwhile: the inputs are consumed in order from [pc]. *)
Fixpoint run_download_from (ins : list rinput) (pc : runner_pc) (j : job)
    : option (runner_pc * job * list effect) :=
  match ins with
  | [] => Some (pc, j, [])
  | i :: ins' =>
      match runner_step i pc j with
      | None => None
      | Some (pc', j', effs) =>
          match run_download_from ins' pc' j' with
          | None => None
          | Some (pc'', j'', effs') => Some (pc'', j'', (effs ++ effs')%list)
          end
      end
  end.

Definition run_download (ins : list rinput) (j : job)
    : option (runner_pc * job * list effect) :=
  run_download_from ins RStart j.

(** An execution of [run_download] while other threads write the job dict:
    each input comes with the writes made on the dict since the previous
    step. *)
Fixpoint run_download_among (ins : list ((job -> job) * rinput))
    (pc : runner_pc) (j : job) : option (runner_pc * job * list effect) :=
  match ins with
  | [] => Some (pc, j, [])
  | (others, i) :: ins' =>
      match runner_step i pc (others j) with
      | None => None
      | Some (pc', j', effs) =>
          match run_download_among ins' pc' j' with
          | None => None
          | Some (pc'', j'', effs') => Some (pc'', j'', (effs ++ effs')%list)
          end
      end
  end.

(** The notifications among the effects. *)
Definition notifications (effs : list effect) : list notification :=
  omap (fun e => match e with Notify n => Some n | _ => None end) effs.

(** The calls of [process.terminate()] among the effects. *)
Definition terminations (effs : list effect) : list nat :=
  omap (fun e => match e with Terminate pid => Some pid | _ => None end) effs.


(** *** The queue and its lock-protected blocks *)

(** Job dicts are shared objects: the queue holds references to them and so
    does every runner thread.  A reference is the position of the dict in
    [heap], the list of all job dicts in creation order. *)
Definition addr := nat.

Definition status_at (heap : list job) (a : addr) : option job_status :=
  status <$> heap !! a.

Definition has_status (v : job_status) (heap : list job) (a : addr) : bool :=
  bool_decide (status_at heap a = Some v).

(** [sum(1 for j in download_queue if j['status'] == v)] *)
Definition count_status (v : job_status) (heap : list job)
    (download_queue : list addr) : nat :=
  length (filter (fun a => has_status v heap a = true) download_queue).

(** The [for job in download_queue: if job['status'] == 'queued': ... break]
    search. *)
Fixpoint next_queued (heap : list job) (download_queue : list addr)
    : option addr :=
  match download_queue with
  | [] => None
  | a :: q' => if has_status Queued heap a then Some a else next_queued heap q'
  end.

Inductive check_result :=
| Admit (next_job : addr)     (* falls through to the writes on [next_job] *)
| Wait                        (* [time.sleep(1); continue] *)
| Return.                     (* [return] *)

(** The tests of one pass of [process_queue] inside [with queue_lock]. *)
Definition process_queue_check (max_concurrent : Z) (heap : list job)
    (download_queue : list addr) : check_result :=
  let active_count := count_status Active heap download_queue in
  let next_job := next_queued heap download_queue in
  match next_job with
  | Some a =>
      if (max_concurrent <=? Z.of_nat active_count)%Z then
        if (count_status Queued heap download_queue =? 0)%nat
        then Return else Wait
      else Admit a
  | None =>
      if (count_status Queued heap download_queue =? 0)%nat
      then Return else Wait
  end.

(** The three writes on [next_job] that end the block. *)
Definition mark_active (now : timestamp) (j : job) : job :=
  set_message "Starting download..."
    (set_started_at (Some now) (set_status Active j)).

Definition update (a : addr) (f : job -> job) (heap : list job) : list job :=
  match heap !! a with
  | Some j => <[a := f j]> heap
  | None => heap
  end.

(** The first job of the queue that satisfies [p]
    ([for job in download_queue: if p(job): ...; return]). *)
Fixpoint find_job (p : job -> bool) (heap : list job)
    (download_queue : list addr) : option addr :=
  match download_queue with
  | [] => None
  | a :: q' =>
      match heap !! a with
      | Some j => if p j then Some a else find_job p heap q'
      | None => find_job p heap q'
      end
  end.

Definition terminate_of (j : job) : list effect :=
  match process j with
  | Some pid => [Terminate pid]
  | None => []
  end.

(** [api_queue_pause]: [None] is the 404 answer. *)
Definition api_queue_pause (queue_id : Z) (heap : list job)
    (download_queue : list addr) : option (list job * list effect) :=
  match find_job (fun j => bool_decide (id j = IdInt queue_id) &&
                           bool_decide (status j = Active))
                 heap download_queue with
  | Some a =>
      let heap := update a (set_status Paused) heap in
      Some (heap, from_option terminate_of [] (heap !! a))
  | None => None
  end.

(** [api_queue_resume], without the thread it starts. *)
Definition api_queue_resume (queue_id : Z) (heap : list job)
    (download_queue : list addr) : option (list job) :=
  match find_job (fun j => bool_decide (id j = IdInt queue_id) &&
                           bool_decide (status j = Paused))
                 heap download_queue with
  | Some a =>
      Some (update a (fun j => set_message "Resuming..." (set_status Queued j))
              heap)
  | None => None
  end.

(** [download_queue.pop(i)] at the first position holding [a] *)
Fixpoint remove_first (a : addr) (download_queue : list addr) : list addr :=
  match download_queue with
  | [] => []
  | b :: q' => if bool_decide (a = b) then q' else b :: remove_first a q'
  end.

(** [api_queue_delete] *)
Definition api_queue_delete (queue_id : Z) (heap : list job)
    (download_queue : list addr) : option (list addr * list effect) :=
  match find_job (fun j => bool_decide (id j = IdInt queue_id))
                 heap download_queue with
  | Some a =>
      Some (remove_first a download_queue,
            match heap !! a with
            | Some j => if bool_decide (status j = Active)
                        then terminate_of j else []
            | None => []
            end)
  | None => None
  end.

(** [api_queue_clear] *)
Definition api_queue_clear (heap : list job) (download_queue : list addr)
    : list addr :=
  filter (fun a => has_status Completed heap a = false ∧
                   has_status Failed heap a = false) download_queue.

(** The loop of [api_factory_reset] over the queue *)
Definition factory_reset_effects (heap : list job)
    (download_queue : list addr) : list effect :=
  flat_map (fun a => from_option terminate_of [] (heap !! a)) download_queue.

(** *** Threads *)

(** Where a [process_queue] thread stands. *)
Inductive drain_pc :=
| DInit
    (* started; [max_concurrent] is not read yet *)
| DLoop (max_concurrent : Z)
    (* at [while True], outside the lock *)
| DMark (max_concurrent : Z) (next_job : addr)
    (* inside [with queue_lock], past the tests, before the writes *)
| DDispatch (max_concurrent : Z) (next_job : addr)
    (* the lock is released; the runner thread is not started yet *)
| DDone.
    (* returned, or ended by the exception of [int] *)

Record runner := {
  r_job : addr;
  r_pc : runner_pc;
}.

(** The global state of the engine and its threads.
    [max_concurrent_downloads] is the value of the setting as [int] reads
    it; [None] stands for a text on which [int] raises.  [queue_lock] names
    the [process_queue] thread that is inside its admission block; the other
    blocks under the lock are single steps. *)
Record sys := {
  heap : list job;
  download_queue : list addr;
  queue_id_counter : Z;
  max_concurrent_downloads : option Z;
  queue_lock : option nat;
  drains : list drain_pc;
  runners : list runner;
  effects : list effect;
}.

Definition init_sys (setting : option Z) : sys :=
  {| heap := []; download_queue := []; queue_id_counter := 0;
     max_concurrent_downloads := setting; queue_lock := None;
     drains := []; runners := []; effects := [] |}.

(** What happens next: a call from outside, or the step of one thread. *)
Inductive event :=
| EvAddToQueue (username platform : string) (url folder : option string)
    (* [add_to_queue] *)
| EvTelegramQueue (id : string) (username platform : string)
    (* the Telegram handlers: the job is appended, no thread is started *)
| EvSetSetting (v : option Z)
    (* [set_setting('max_concurrent_downloads', v)] *)
| EvDrainRead (tid : nat)
    (* [max_concurrent = int(get_setting(...))] *)
| EvDrainCheck (tid : nat)
    (* the lock is taken and the tests of the pass are made *)
| EvDrainMark (tid : nat) (now : timestamp)
    (* the writes on [next_job]; the lock is released *)
| EvDrainDispatch (tid : nat)
    (* [threading.Thread(target=run_download, args=(next_job,)).start()] *)
| EvRunner (tid : nat) (i : rinput)
    (* a step of a [run_download] thread *)
| EvPause (queue_id : Z)
| EvResume (queue_id : Z)
| EvDelete (queue_id : Z)
| EvClear
| EvFactoryReset.

Definition with_heap (h : list job) (s : sys) : sys :=
  {| heap := h; download_queue := download_queue s;
     queue_id_counter := queue_id_counter s;
     max_concurrent_downloads := max_concurrent_downloads s;
     queue_lock := queue_lock s; drains := drains s; runners := runners s;
     effects := effects s |}.

Definition with_queue (q : list addr) (s : sys) : sys :=
  {| heap := heap s; download_queue := q;
     queue_id_counter := queue_id_counter s;
     max_concurrent_downloads := max_concurrent_downloads s;
     queue_lock := queue_lock s; drains := drains s; runners := runners s;
     effects := effects s |}.

Definition with_drains (lock : option nat) (d : list drain_pc) (s : sys) : sys :=
  {| heap := heap s; download_queue := download_queue s;
     queue_id_counter := queue_id_counter s;
     max_concurrent_downloads := max_concurrent_downloads s;
     queue_lock := lock; drains := d; runners := runners s;
     effects := effects s |}.

Definition with_runners (r : list runner) (s : sys) : sys :=
  {| heap := heap s; download_queue := download_queue s;
     queue_id_counter := queue_id_counter s;
     max_concurrent_downloads := max_concurrent_downloads s;
     queue_lock := queue_lock s; drains := drains s; runners := r;
     effects := effects s |}.

Definition add_effects (e : list effect) (s : sys) : sys :=
  {| heap := heap s; download_queue := download_queue s;
     queue_id_counter := queue_id_counter s;
     max_concurrent_downloads := max_concurrent_downloads s;
     queue_lock := queue_lock s; drains := drains s; runners := runners s;
     effects := (effects s ++ e)%list |}.

(** A new job dict is created and appended to the queue. *)
Definition append_job (j : job) (s : sys) : sys :=
  with_queue (download_queue s ++ [length (heap s)])%list
    (with_heap (heap s ++ [j])%list s).

Definition lock_free (s : sys) : bool :=
  match queue_lock s with None => true | Some _ => false end.

(** One step of the engine.  [None]: the event cannot happen in [s] (the
    lock is held by another thread, or the thread is not at that point). *)
Definition step (e : event) (s : sys) : option sys :=
  match e with
  | EvAddToQueue u p url folder =>
      if lock_free s then
        let n := (queue_id_counter s + 1)%Z in
        let s := append_job (new_job (IdInt n) u p url folder
                               "Waiting in queue...") s in
        Some {| heap := heap s; download_queue := download_queue s;
                queue_id_counter := n;
                max_concurrent_downloads := max_concurrent_downloads s;
                queue_lock := queue_lock s;
                drains := (drains s ++ [DInit])%list;
                runners := runners s; effects := effects s |}
      else None
  | EvTelegramQueue i u p =>
      if lock_free s then
        Some (append_job (new_job (IdStr i) u p None None
                            "Waiting to start...") s)
      else None
  | EvSetSetting v =>
      Some {| heap := heap s; download_queue := download_queue s;
              queue_id_counter := queue_id_counter s;
              max_concurrent_downloads := v;
              queue_lock := queue_lock s; drains := drains s;
              runners := runners s; effects := effects s |}
  | EvDrainRead tid =>
      match drains s !! tid with
      | Some DInit =>
          match max_concurrent_downloads s with
          | Some n => Some (with_drains (queue_lock s)
                              (<[tid := DLoop n]> (drains s)) s)
          | None => Some (with_drains (queue_lock s)
                            (<[tid := DDone]> (drains s)) s)
          end
      | _ => None
      end
  | EvDrainCheck tid =>
      match drains s !! tid with
      | Some (DLoop n) =>
          if lock_free s then
            match process_queue_check n (heap s) (download_queue s) with
            | Admit a =>
                Some (with_drains (Some tid) (<[tid := DMark n a]> (drains s)) s)
            | Wait => Some s
            | Return => Some (with_drains None (<[tid := DDone]> (drains s)) s)
            end
          else None
      | _ => None
      end
  | EvDrainMark tid now =>
      match drains s !! tid with
      | Some (DMark n a) =>
          Some (with_drains None (<[tid := DDispatch n a]> (drains s))
                  (with_heap (update a (mark_active now) (heap s)) s))
      | _ => None
      end
  | EvDrainDispatch tid =>
      match drains s !! tid with
      | Some (DDispatch n a) =>
          Some (with_runners
                  (runners s ++ [{| r_job := a; r_pc := RStart |}])%list
                  (with_drains (queue_lock s) (<[tid := DLoop n]> (drains s)) s))
      | _ => None
      end
  | EvRunner tid i =>
      match runners s !! tid with
      | Some r =>
          match heap s !! r_job r with
          | Some j =>
              match runner_step i (r_pc r) j with
              | Some (pc, j', effs) =>
                  Some (add_effects effs
                          (with_runners
                             (<[tid := {| r_job := r_job r; r_pc := pc |}]>
                                (runners s))
                             (with_heap (<[r_job r := j']> (heap s)) s)))
              | None => None
              end
          | None => None
          end
      | None => None
      end
  | EvPause queue_id =>
      if lock_free s then
        match api_queue_pause queue_id (heap s) (download_queue s) with
        | Some (h, effs) => Some (add_effects effs (with_heap h s))
        | None => Some s
        end
      else None
  | EvResume queue_id =>
      if lock_free s then
        match api_queue_resume queue_id (heap s) (download_queue s) with
        | Some h =>
            Some (with_drains (queue_lock s) (drains s ++ [DInit])%list
                    (with_heap h s))
        | None => Some s
        end
      else None
  | EvDelete queue_id =>
      if lock_free s then
        match api_queue_delete queue_id (heap s) (download_queue s) with
        | Some (q, effs) => Some (add_effects effs (with_queue q s))
        | None => Some s
        end
      else None
  | EvClear =>
      if lock_free s then
        Some (with_queue (api_queue_clear (heap s) (download_queue s)) s)
      else None
  | EvFactoryReset =>
      if lock_free s then
        Some (with_queue []
                (add_effects
                   (factory_reset_effects (heap s) (download_queue s)) s))
      else None
  end.

(** The engine after a sequence of events. *)
Fixpoint run (evs : list event) (s : sys) : option sys :=
  match evs with
  | [] => Some s
  | e :: evs' =>
      match step e s with
      | Some s' => run evs' s'
      | None => None
      end
  end.

(** [active_count] of a state *)
Definition active_count (s : sys) : nat :=
  count_status Active (heap s) (download_queue s).



(** The value that a [process_queue] thread holds in [max_concurrent]. *)
Definition drain_cap (d : drain_pc) : option Z :=
  match d with
  | DLoop n | DMark n _ | DDispatch n _ => Some n
  | DInit | DDone => None
  end.



(** The test of the first branch of the progress parsing: the line is
    taken for a downloaded file. *)
Definition counts_as_file (line : string) : bool :=
  contains "Downloading" line || contains ".jpg" line ||
  contains ".mp4" line || contains ".png" line.

(** How many of the lines read in [ins] are taken for a downloaded file. *)
Fixpoint files_seen (ins : list rinput) : nat :=
  match ins with
  | [] => 0
  | InLine line _ _ _ :: ins' =>
      (if (0 <? len (strip line))%nat && counts_as_file (strip line)
       then 1 else 0) + files_seen ins'
  | _ :: ins' => files_seen ins'
  end.

(** The notification of a completed run that counted [n] files. *)
Definition completed_notification (j : job) (n : nat) : notification :=
  if (0 <? n)%nat then NewFiles (display_username j) (platform j) n
  else UpToDate (display_username j) (platform j).

(** What a run that left the read loop has done to the job and to the
    outside. *)
Definition finished (j : job) (fc : nat) (ins : list rinput) (j' : job)
    (effs : list effect) : Prop :=
  exists now,
    completed_at j' = Some now /\ process j' = None /\
    username j' = username j /\ platform j' = platform j /\
    files_downloaded j'
      = (if (files_seen ins =? 0)%nat then files_downloaded j
         else fc + files_seen ins) /\
    ((status j' = Completed /\
      (exists ins0, ins = (ins0 ++ [InEof 0 None; InFinally now])%list) /\
      message j' = "Completed! Downloaded " +:+
                   str_nat (fc + files_seen ins) +:+ " files" /\
      effs = [LastSync (username j) (platform j);
              Notify (completed_notification j (fc + files_seen ins))]) \/
     (status j' = Failed /\
      notifications effs
        = [Failure (display_username j) (platform j) (message j')])).

(** The calls that start a [process_queue] thread: [add_to_queue] and
    [api_queue_resume]. *)
Definition starts_process_queue (e : event) : bool :=
  match e with
  | EvAddToQueue _ _ _ _ | EvResume _ => true
  | _ => false
  end.

(** No [process_queue] thread is alive. *)
Definition no_live_drain (s : sys) : Prop :=
  forall tid d, drains s !! tid = Some d -> d = DDone.


(** A pass of [process_queue] or a runner has written on the job. *)
Definition touched (j : job) : Prop :=
  status j <> Queued \/ is_Some (completed_at j) \/ is_Some (process j).

(** Every job that was written on has its [started_at]; so has the job of
    every runner and the job that a [process_queue] thread is about to hand
    to a runner; the job that a thread is about to mark exists. *)
Definition started_inv_of (h : list job) (ds : list drain_pc)
    (rs : list runner) : Prop :=
  (forall a j, h !! a = Some j -> touched j -> is_Some (started_at j)) /\
  (forall tid r, rs !! tid = Some r ->
     exists j, h !! r_job r = Some j /\ is_Some (started_at j)) /\
  (forall tid n a, ds !! tid = Some (DDispatch n a) ->
     exists j, h !! a = Some j /\ is_Some (started_at j)) /\
  (forall tid n a, ds !! tid = Some (DMark n a) -> a < length h).

Definition started_inv (s : sys) : Prop :=
  started_inv_of (heap s) (drains s) (runners s).

End Queue.

(** ** Concrete inputs used by the examples of Part II *)

Module Examples.
Import Gofile Queue.

(** Four children of one directory: two files and two folders with equal
    names. *)
Definition siblings : list lookup :=
  [ {| l_parent_dir := "out/ID"; l_child_name := "a.txt"; l_is_dir := false |};
    {| l_parent_dir := "out/ID"; l_child_name := "a.txt"; l_is_dir := false |};
    {| l_parent_dir := "out/ID"; l_child_name := "pics"; l_is_dir := true |};
    {| l_parent_dir := "out/ID"; l_child_name := "pics"; l_is_dir := true |} ].

(** A folder ["Album"] with content id ["ID"] that holds one file, also
    named ["Album"]. *)
Definition album_data : content_data :=
  {| d_has_password := false; d_passwordStatus := None;
     d_type := Some "folder"; d_name := Some "Album"; d_link := None;
     d_children := [ {| c_type := Some "file"; c_id := "F1";
                        c_name := Some "Album"; c_link := Some "https://x/F1" |} ] |}.

Definition album_response : api_response :=
  {| ar_status_code := 200; ar_json := JsonValue (Some "ok") album_data |}.

Definition album_world : world :=
  {| w_api := fun url _ =>
       if String.eqb url (content_url "ID" None) then TryOk album_response
       else TryTimeout;
     w_stop := fun _ => false;
     w_account := fun _ => TryOk true;
     w_sha256 := fun s => s;
     w_pool := fun files errs => (length files, errs) |}.

(** A server that answers every request for a file with the status 404,
    and one that answers 302. *)
Definition reply_with (code : Z) : dl_response :=
  {| status_code := code; content_length := HAbsent; content_range := HAbsent;
     chunks := [] |}.

Definition always (code : Z) : nat -> attempt :=
  fun _ => {| at_stop := false; at_part := None;
              at_get := fun _ => TryOk (reply_with code);
              at_open_error := None; at_move_error := None |}.

Definition fresh_dstate : dstate :=
  {| ds_errors := []; ds_files_downloaded := 0; ds_requests := 0 |}.

(** A server on which the content ["ID"] is an empty folder and every other
    request times out. *)
Definition empty_folder_world : world :=
  {| w_api := fun url _ =>
       if String.eqb url (content_url "ID" None) then
         TryOk {| ar_status_code := 200;
                  ar_json := JsonValue (Some "ok")
                    {| d_has_password := false; d_passwordStatus := None;
                       d_type := Some "folder"; d_name := Some "Album";
                       d_link := None; d_children := [] |} |}
       else TryTimeout;
     w_stop := fun _ => false;
     w_account := fun _ => TryOk true;
     w_sha256 := fun s => s;
     w_pool := fun files errs => (length files, errs) |}.

(** A job as [add_to_queue] creates it, admitted by [process_queue]. *)
Definition bob_job : job :=
  set_status Active
    (new_job (IdInt 1) "bob" "instagram" None None "Waiting in queue...").

Definition newline : string := String (ascii_of_nat 10) "".

(** A subprocess that prints a file line at once, is silent for 1000
    seconds, prints a second file line and exits with code 0. *)
Definition stalled_inputs : list rinput :=
  [ InPopen 7 0;
    InLine ("a.jpg" +:+ newline) 1 1 "2026-01-01T00:00:01";
    InLine ("b.jpg" +:+ newline) 1001 1001 "2026-01-01T00:16:41";
    InEof 0 None;
    InFinally "2026-01-01T00:16:42" ].

(** A runner that reads a line after the job was paused. *)
Definition paused_inputs : list ((job -> job) * rinput) :=
  [ (fun j => j, InPopen 7 0);
    (fun j => j, InLine ("a.jpg" +:+ newline) 1 1 "2026-01-01T00:00:01");
    (set_status Paused, InLine ("b.jpg" +:+ newline) 2 2 "2026-01-01T00:00:02");
    (fun j => j, InFinally "2026-01-01T00:00:03") ].


(** The setting is lowered from 2 to 1 while a [process_queue] thread that
    has read 2 is running: the thread admits a second job. *)
Definition lowered_trace : list event :=
  [ EvAddToQueue "bob" "instagram" None None;
    EvAddToQueue "alice" "tiktok" None None;
    EvDrainRead 0;
    EvDrainCheck 0; EvDrainMark 0 "2026-01-01T00:00:00"; EvDrainDispatch 0;
    EvSetSetting (Some 1%Z);
    EvDrainCheck 0; EvDrainMark 0 "2026-01-01T00:00:01" ].

(** A job is admitted, its runner counts two files, the job is paused and
    the runner sees it, and the job is resumed. *)
Definition pause_resume_trace : list event :=
  [ EvAddToQueue "bob" "instagram" None None;
    EvDrainRead 0;
    EvDrainCheck 0; EvDrainMark 0 "2026-01-01T00:00:00"; EvDrainDispatch 0;
    EvRunner 0 (InPopen 7 0);
    EvRunner 0 (InLine ("a.jpg" +:+ newline) 1 1 "2026-01-01T00:00:01");
    EvRunner 0 (InLine ("b.jpg" +:+ newline) 2 2 "2026-01-01T00:00:02");
    EvPause 1;
    EvRunner 0 (InLine ("c.jpg" +:+ newline) 3 3 "2026-01-01T00:00:03");
    EvRunner 0 (InFinally "2026-01-01T00:00:03");
    EvResume 1 ].


(** The end of the execution [paused_inputs], evaluated. *)
Definition paused_result : runner_pc * job * list effect :=
  Eval vm_compute in
    default (RStart, bob_job, [])
      (run_download_among paused_inputs RStart bob_job).

(** The end of the execution [stalled_inputs], evaluated. *)
Definition stalled_result : runner_pc * job * list effect :=
  Eval vm_compute in
    default (RStart, bob_job, []) (run_download stalled_inputs bob_job).

(** A queue of two jobs: the job 1 of [add_to_queue], running with the
    process 7, and a job queued by a Telegram handler. *)
Definition mixed_heap : list job :=
  [ set_process (Some 7) bob_job;
    new_job (IdStr "tiktok_alice_1767225600") "alice" "tiktok" None None
      "Waiting to start..." ].





Definition lowered_state : sys :=
  Eval vm_compute in
    default (init_sys None) (run (take 7 lowered_trace) (init_sys (Some 2%Z))).

Definition lowered_checked_state : sys :=
  Eval vm_compute in
    default (init_sys None) (step (EvDrainCheck 0) lowered_state).

Definition resumed_state : sys :=
  Eval vm_compute in
    default (init_sys None) (run pause_resume_trace (init_sys (Some 2%Z))).

(** The job of [pause_resume_trace] is paused and its runner has not read
    a line since. *)
Definition paused_before_line : sys :=
  Eval vm_compute in
    default (init_sys None)
      (run (take 9 pause_resume_trace) (init_sys (Some 2%Z))).


(** A server on which the content ["ID"] is protected by a password that
    the request did not give. *)
Definition protected_data : content_data :=
  {| d_has_password := true; d_passwordStatus := Some "passwordRequired";
     d_type := Some "folder"; d_name := Some "Album"; d_link := None;
     d_children := [] |}.

Definition protected_response : api_response :=
  {| ar_status_code := 200; ar_json := JsonValue (Some "ok") protected_data |}.

Definition protected_world : world :=
  {| w_api := fun url _ => TryOk protected_response;
     w_stop := fun _ => false;
     w_account := fun _ => TryOk true;
     w_sha256 := fun s => s;
     w_pool := fun files errs => (length files, errs) |}.

(** The folder ["Album"] again, with a stop request pending from the
    start. *)
Definition stopped_world : world :=
  {| w_api := w_api album_world;
     w_stop := fun _ => true;
     w_account := fun _ => TryOk true;
     w_sha256 := fun s => s;
     w_pool := fun files errs => (length files, errs) |}.

End Examples.

(* ===================================================================== *)
(** * Part II.  Properties                                                *)
(* ===================================================================== *)

(** ** Strings and paths *)

Section StringFacts.
Import PyStr PosixPath.

Lemma str_app_nil_l (t : string) : "" +:+ t = t.
Proof. reflexivity. Qed.

Lemma str_app_cons (c : ascii) (s t : string) :
  String c s +:+ t = String c (s +:+ t).
Proof. reflexivity. Qed.

Lemma str_app_nil_r (s : string) : s +:+ "" = s.
Proof. induction s as [|c s IH]; [done | by rewrite str_app_cons, IH]. Qed.

Lemma str_app_assoc (s t u : string) : (s +:+ t) +:+ u = s +:+ t +:+ u.
Proof. induction s as [|c s IH]; [done | by rewrite !str_app_cons, IH]. Qed.

Lemma str_app_length (s t : string) :
  String.length (s +:+ t) = String.length s + String.length t.
Proof. induction s as [|c s IH]; [done | rewrite str_app_cons; simpl; by rewrite IH]. Qed.

Lemma str_app_inv_head (s t u : string) : s +:+ t = s +:+ u -> t = u.
Proof. apply String.app_inj. Qed.

Lemma str_app_inv_tail (s t u : string) : s +:+ u = t +:+ u -> s = t.
Proof.
  revert t. induction s as [|c s IH]; intros [|d t]; intros H.
  - done.
  - apply (f_equal String.length) in H.
    rewrite str_app_nil_l, str_app_cons in H. simpl in H. rewrite str_app_length in H. lia.
  - apply (f_equal String.length) in H.
    rewrite str_app_nil_l, str_app_cons in H. simpl in H. rewrite str_app_length in H. lia.
  - rewrite !str_app_cons in H. injection H as -> H. f_equal. by apply IH.
Qed.

Lemma str_take_drop (n : nat) (s : string) : take n s +:+ drop n s = s.
Proof.
  revert s. induction n as [|n IH]; intros [|c s]; simpl; try done.
  by rewrite str_app_cons, IH.
Qed.

Lemma rfind_lt (c : ascii) (s : string) :
  (-1 <= rfind c s < Z.of_nat (String.length s))%Z.
Proof.
  induction s as [|a s IH]; simpl; [lia|].
  destruct (0 <=? rfind c s)%Z eqn:E; [lia|].
  destruct (Ascii.eqb a c); lia.
Qed.

Lemma rfind_get (c : ascii) (s : string) :
  (0 <= rfind c s)%Z -> get (Z.to_nat (rfind c s)) s = Some c.
Proof.
  induction s as [|a s IH]; simpl; [lia|].
  destruct (0 <=? rfind c s)%Z eqn:E.
  - intros _. apply Z.leb_le in E.
    replace (Z.to_nat (rfind c s + 1)) with (S (Z.to_nat (rfind c s))) by lia.
    simpl. by apply IH.
  - destruct (Ascii.eqb a c) eqn:Eq; [|lia].
    intros _. simpl. apply Ascii.eqb_eq in Eq. by subst.
Qed.

Lemma drop_get (n : nat) (s : string) (c : ascii) :
  get n s = Some c -> exists t, drop n s = String c t.
Proof.
  revert s. induction n as [|n IH]; intros [|a s]; simpl; try done.
  - intros [= ->]. eauto.
  - apply IH.
Qed.

(** [splitext] cuts its argument in two. *)
Lemma splitext_app (p : string) : (splitext p).1 +:+ (splitext p).2 = p.
Proof.
  unfold splitext.
  destruct (rfind sep p <? rfind extsep p)%Z; simpl; [|apply str_app_nil_r].
  destruct (has_non_dot _ _ _); simpl; [apply str_take_drop | apply str_app_nil_r].
Qed.

(** The extension is empty or starts with a dot. *)
Lemma splitext_ext (p : string) :
  (splitext p).2 = "" \/ exists t, (splitext p).2 = String extsep t.
Proof.
  unfold splitext.
  destruct (rfind sep p <? rfind extsep p)%Z eqn:E; simpl; [|by left].
  destruct (has_non_dot _ _ _); simpl; [|by left].
  right. apply Z.ltb_lt in E. apply drop_get, rfind_get.
  pose proof (rfind_lt sep p). lia.
Qed.

End StringFacts.

(** ** The naming-collision table *)

Section Collisions.
Import PosixPath Gofile.

(** A call returns the expected path for the number it finds in the table
    and stores that number. *)
Lemma resolve_naming_collision_eq (pc : gmap string nat)
    (parent_dir child_name : string) (is_dir : bool) :
  resolve_naming_collision pc parent_dir child_name is_dir =
  let p := join parent_dir child_name in
  let n := match pc !! p with Some k => k + 1 | None => 0 end in
  (expected_path p n is_dir, <[p := n]> pc).
Proof.
  unfold resolve_naming_collision. cbv zeta.
  destruct (pc !! join parent_dir child_name) as [k|] eqn:E;
    rewrite lookup_insert_eq; simpl.
  - replace (k + 1) with (S k) by lia. simpl. unfold numbered.
    destruct is_dir; [done|]. by destruct (splitext _).
  - done.
Qed.

Lemma table_of_empty : table_of [] ∅.
Proof. intros p. by rewrite lookup_empty. Qed.

Lemma occurrences_app (p : string) (qs qs' : list lookup) :
  occurrences p (qs ++ qs') = occurrences p qs + occurrences p qs'.
Proof. unfold occurrences. by rewrite filter_app, length_app. Qed.

Lemma occurrences_one (p : string) (q : lookup) :
  occurrences p [q] = if decide (candidate q = p) then 1 else 0.
Proof.
  unfold occurrences. rewrite filter_cons, filter_nil.
  by destruct (decide (candidate q = p)).
Qed.

Lemma table_of_step (seen : list lookup) (pc : gmap string nat) (q : lookup) :
  table_of seen pc ->
  resolve_naming_collision pc (l_parent_dir q) (l_child_name q) (l_is_dir q) =
    (expected_path (candidate q) (occurrences (candidate q) seen) (l_is_dir q),
     <[candidate q := occurrences (candidate q) seen]> pc) /\
  table_of (seen ++ [q]) (<[candidate q := occurrences (candidate q) seen]> pc).
Proof.
  intros Ht. rewrite resolve_naming_collision_eq. cbv zeta.
  fold (candidate q).
  assert (match pc !! candidate q with Some k => k + 1 | None => 0 end =
          occurrences (candidate q) seen) as ->.
  { rewrite (Ht (candidate q)).
    destruct (occurrences (candidate q) seen); lia. }
  split; [done|].
  intros p. rewrite occurrences_app, occurrences_one.
  destruct (decide (candidate q = p)) as [<-|Hne].
  - rewrite lookup_insert_eq. by rewrite Nat.add_1_r.
  - rewrite lookup_insert_ne by done. rewrite Nat.add_0_r. apply Ht.
Qed.

Lemma resolve_all_lookup (qs seen : list lookup) (pc : gmap string nat) :
  table_of seen pc ->
  forall i q, qs !! i = Some q ->
    (resolve_all pc qs).1 !! i =
    Some (expected_path (candidate q)
            (occurrences (candidate q) (seen ++ take i qs)) (l_is_dir q)).
Proof.
  revert seen pc. induction qs as [|q0 qs IH]; intros seen pc Ht i q Hi.
  - by rewrite lookup_nil in Hi.
  - destruct (table_of_step seen pc q0 Ht) as [Heq Ht'].
    simpl. rewrite Heq.
    destruct (resolve_all _ qs) as [ps pc'] eqn:Hall. simpl.
    destruct i as [|i]; simpl in *.
    + injection Hi as ->. by rewrite app_nil_r.
    + specialize (IH _ _ Ht' i q Hi). rewrite Hall in IH. simpl in IH.
      rewrite IH. by rewrite <- app_assoc.
Qed.

Lemma numbered_length (p : string) (n : nat) (is_dir : bool) :
  String.length (numbered p n is_dir) =
  String.length p + 2 + String.length (PyStr.str_nat n).
Proof.
  unfold numbered. destruct is_dir.
  - rewrite !str_app_length. simpl. lia.
  - rewrite <- (splitext_app p) at 3. rewrite !str_app_length. simpl. lia.
Qed.

Lemma str_nat_inj (n m : nat) : PyStr.str_nat n = PyStr.str_nat m -> n = m.
Proof. apply (inj pretty). Qed.

(** Two different numbers never give the same path. *)
Lemma numbered_inj (p : string) (n m : nat) (d d' : bool) :
  numbered p n d = numbered p m d' -> n = m.
Proof.
  unfold numbered. destruct d, d'; intros H.
  - apply str_app_inv_head, str_app_inv_head in H.
    by apply str_app_inv_tail, str_nat_inj in H.
  - rewrite <- (splitext_app p) in H at 1. rewrite str_app_assoc in H.
    apply str_app_inv_head in H.
    destruct (splitext_ext p) as [E|[t E]]; rewrite E in H.
    + rewrite ?str_app_nil_l, ?str_app_nil_r in H. apply str_app_inv_head in H.
      by apply str_app_inv_tail, str_nat_inj in H.
    + rewrite !str_app_cons in H. discriminate H.
  - rewrite <- (splitext_app p) in H at 3. rewrite str_app_assoc in H.
    apply str_app_inv_head in H.
    destruct (splitext_ext p) as [E|[t E]]; rewrite E in H.
    + rewrite ?str_app_nil_l, ?str_app_nil_r in H. apply str_app_inv_head in H.
      by apply str_app_inv_tail, str_nat_inj in H.
    + rewrite !str_app_cons in H. discriminate H.
  - apply str_app_inv_head, str_app_inv_head in H.
    by apply str_app_inv_tail, str_nat_inj in H.
Qed.

Lemma expected_path_inj (p : string) (n m : nat) (d d' : bool) :
  expected_path p n d = expected_path p m d' -> n = m.
Proof.
  destruct n as [|n], m as [|m]; simpl; intros H; try done.
  - apply (f_equal String.length) in H. rewrite numbered_length in H. lia.
  - apply (f_equal String.length) in H. rewrite numbered_length in H. lia.
  - by apply numbered_inj in H.
Qed.

Lemma occurrences_take_lt (qs : list lookup) (i j : nat) (q : lookup) :
  i < j -> qs !! i = Some q ->
  occurrences (candidate q) (take i qs) < occurrences (candidate q) (take j qs).
Proof.
  revert i j. induction qs as [|q0 qs IH]; intros i j Hij Hi.
  - by rewrite lookup_nil in Hi.
  - destruct j as [|j]; [lia|]. destruct i as [|i]; simpl in Hi.
    + injection Hi as ->. unfold occurrences. simpl.
      rewrite filter_cons. destruct (decide (candidate q = candidate q)); [|done].
      simpl. lia.
    + assert (i < j) as Hij' by lia. specialize (IH i j Hij' Hi).
      unfold occurrences in *. simpl. rewrite !filter_cons.
      destruct (decide (candidate q0 = candidate q)); simpl; lia.
Qed.

End Collisions.

Section CollisionResolver.
Import PosixPath Gofile Examples.

(** C6.  The calls of [_resolve_naming_collision] made on one shared table,
    starting from the empty table of a resolve, are numbered per candidate
    path: a call whose candidate path was not met before returns it as it
    is; the call that meets it for the [n]-th further time ([n >= 1])
    returns it with ["(n)"] at the end for a directory and before the
    extension for a file; and two calls with the same candidate path never
    return the same path. *)
Theorem resolve_all_numbered (qs : list lookup) :
  (forall i q, qs !! i = Some q ->
     occurrences (candidate q) (take i qs) = 0 ->
     (resolve_all ∅ qs).1 !! i = Some (candidate q)) /\
  (forall i q n, qs !! i = Some q ->
     occurrences (candidate q) (take i qs) = n -> 1 <= n ->
     (resolve_all ∅ qs).1 !! i =
     Some (if l_is_dir q
           then candidate q +:+ "(" +:+ PyStr.str_nat n +:+ ")"
           else (splitext (candidate q)).1 +:+ "(" +:+ PyStr.str_nat n +:+ ")"
                +:+ (splitext (candidate q)).2)) /\
  (forall i j qi qj, i <> j -> qs !! i = Some qi -> qs !! j = Some qj ->
     candidate qi = candidate qj ->
     (resolve_all ∅ qs).1 !! i <> (resolve_all ∅ qs).1 !! j).
Proof.
  pose proof (resolve_all_lookup qs [] ∅ table_of_empty) as Hall.
  simpl in Hall. split; [|split].
  - intros i q Hi Hocc. rewrite (Hall i q Hi), Hocc. done.
  - intros i q n Hi Hocc Hn. rewrite (Hall i q Hi), Hocc.
    destruct n as [|n]; [lia|]. done.
  - intros i j qi qj Hij Hi Hj Hc.
    rewrite (Hall i qi Hi), (Hall j qj Hj), Hc. intros [= H].
    apply expected_path_inj in H.
    destruct (Nat.lt_total i j) as [Hlt|[->|Hlt]]; [| done |].
    + pose proof (occurrences_take_lt qs i j qi Hlt Hi) as Ho.
      rewrite Hc in Ho. lia.
    + pose proof (occurrences_take_lt qs j i qj Hlt Hj) as Ho. lia.
Qed.

Lemma resolve_all_numbered_siblings :
  (resolve_all ∅ siblings).1 !! 0 = Some "out/ID/a.txt" /\
  (resolve_all ∅ siblings).1 !! 1 = Some "out/ID/a(1).txt" /\
  (resolve_all ∅ siblings).1 !! 3 = Some "out/ID/pics(1)" /\
  (resolve_all ∅ siblings).1 !! 0 <> (resolve_all ∅ siblings).1 !! 1.
Proof.
  destruct (resolve_all_numbered siblings) as (H0 & Hn & Hd).
  split; [|split; [|split]].
  - exact (H0 0 _ eq_refl eq_refl).
  - exact (Hn 1 _ 1 eq_refl eq_refl (le_n 1)).
  - exact (Hn 3 _ 1 eq_refl eq_refl (le_n 1)).
  - apply (Hd 0 1 _ _ (O_S 0) eq_refl eq_refl eq_refl).
Defined.

End CollisionResolver.

(** ** The content tree *)

Section ContentTree.
Import PosixPath Gofile Examples.

Lemma table_le_refl (pc : gmap string nat) : table_le pc pc.
Proof. intros p k H. exists k. split; [done | lia]. Qed.

Lemma table_le_trans (pc1 pc2 pc3 : gmap string nat) :
  table_le pc1 pc2 -> table_le pc2 pc3 -> table_le pc1 pc3.
Proof.
  intros H12 H23 p k H. destruct (H12 p k H) as (k' & H' & Hle).
  destruct (H23 p k' H') as (k'' & H'' & Hle'). exists k''. split; [done | lia].
Qed.

Lemma table_le_resolve (pc : gmap string nat) (a b : string) (d : bool) :
  table_le pc (resolve_naming_collision pc a b d).2.
Proof.
  rewrite resolve_naming_collision_eq. cbv zeta. simpl. intros p k H.
  destruct (decide (join a b = p)) as [<-|Hne].
  - rewrite H, lookup_insert_eq. exists (k + 1). split; [done | lia].
  - rewrite lookup_insert_ne by done. exists k. split; [done | lia].
Qed.

Lemma later_resolve (a b : string) (d : bool) (st : bstate) :
  later st (resolve a b d st).2.
Proof.
  unfold later, resolve.
  pose proof (table_le_resolve (pathing_count st) a b d) as H.
  destruct (resolve_naming_collision _ _ _ _). exact H.
Qed.

Lemma later_enter_folder (a b c : string) (st : bstate) :
  later st (enter_folder a b c st).2.
Proof.
  unfold enter_folder. pose proof (later_resolve a c true st) as H.
  destruct (resolve a c true st). exact H.
Qed.

Lemma children_loop_later (stop : nat -> bool)
    (recurse : string -> bstate -> option bstate) (ap : string) :
  (forall cid st st', recurse cid st = Some st' -> later st st') ->
  forall cs st st', children_loop stop recurse ap cs st = Some st' ->
    later st st'.
Proof.
  intros Hrec. induction cs as [|c cs IH]; intros st st'; simpl.
  - intros [= <-]. apply table_le_refl.
  - destruct (stop (stop_checks st)); [intros [= <-]; apply table_le_refl|].
    destruct (is_folder (c_type c)).
    + destruct (recurse (c_id c) (tick_stop st)) as [st1|] eqn:E; [|done].
      intros H. apply Hrec in E. apply IH in H.
      exact (table_le_trans _ _ _ E H).
    + pose proof (later_resolve ap (default "unknown" (c_name c)) false
                    (tick_stop st)) as Hr.
      destruct (resolve _ _ _ _) as [fp st1]. intros H. apply IH in H.
      exact (table_le_trans _ _ _ Hr H).
Qed.

(** Along the whole walk the table only grows. *)
Lemma build_content_tree_later (w : world) (nr : nat) (ph : option string)
    (fuel : nat) :
  forall parent_dir content_id st st',
    build_content_tree w nr ph fuel parent_dir content_id st = Some st' ->
    later st st'.
Proof.
  induction fuel as [|fuel IH]; intros parent_dir content_id st st'; [done|].
  simpl. destruct (get_response _ _ _) as [[r|] errs];
    [|intros [= <-]; apply table_le_refl].
  destruct (negb (response_truthy _)); [intros [= <-]; apply table_le_refl|].
  destruct (ar_json r) as [e|status data]; [intros [= <-]; apply table_le_refl|].
  destruct (negb (bool_decide _)); [intros [= <-]; apply table_le_refl|].
  destruct (_ && _); [intros [= <-]; apply table_le_refl|].
  destruct (negb (is_folder _)).
  - pose proof (later_resolve parent_dir (default "unknown" (d_name data))
                  false (set_errors errs st)) as Hr.
    destruct (resolve _ _ _ _) as [fp st1]. intros [= <-]. exact Hr.
  - pose proof (later_enter_folder parent_dir content_id
                  (default "unknown" (d_name data)) (set_errors errs st)) as He.
    destruct (enter_folder _ _ _ _) as [ap st1]. intros H.
    apply children_loop_later in H; [|intros cid s s'; apply IH].
    exact (table_le_trans _ _ _ He H).
Qed.

Lemma children_loop_ext (stop : nat -> bool)
    (rec1 rec2 : string -> bstate -> option bstate) (ap : string) :
  (forall cid st st', rec1 cid st = Some st' -> rec2 cid st = Some st') ->
  forall cs st st',
    children_loop stop rec1 ap cs st = Some st' ->
    children_loop stop rec2 ap cs st = Some st'.
Proof.
  intros Hrec. induction cs as [|c cs IH]; intros st st'; simpl; [done|].
  destruct (stop (stop_checks st)); [done|].
  destruct (is_folder (c_type c)).
  - destruct (rec1 (c_id c) (tick_stop st)) as [st1|] eqn:E; [|done].
    rewrite (Hrec _ _ _ E). apply IH.
  - destruct (resolve _ _ _ _) as [fp st1]. apply IH.
Qed.

(** A walk that returns within [fuel] nested calls returns the same state
    with more. *)
Lemma build_content_tree_fuel (w : world) (nr : nat) (ph : option string)
    (fuel : nat) :
  forall parent_dir content_id st st',
    build_content_tree w nr ph fuel parent_dir content_id st = Some st' ->
    build_content_tree w nr ph (S fuel) parent_dir content_id st = Some st'.
Proof.
  induction fuel as [|fuel IH]; intros parent_dir content_id st st'; [done|].
  remember (S fuel) as fuel1 eqn:Hf. intros H.
  rewrite Hf in H. simpl in H. simpl.
  destruct (get_response _ _ _) as [[r|] errs]; [|done].
  destruct (negb (response_truthy _)); [done|].
  destruct (ar_json r) as [e|status data]; [done|].
  destruct (negb (bool_decide _)); [done|].
  destruct (_ && _); [done|].
  destruct (negb (is_folder _)); [done|].
  destruct (enter_folder _ _ _ _) as [ap st1].
  revert H. apply children_loop_ext. intros cid s s' Hs. by apply IH.
Qed.

(** C10.  When [_build_content_tree] handles a folder and the base name of
    [parent_dir] is the content id (the root of the tree), the walk goes on
    in [parent_dir] itself, which is the only directory created for the
    folder, but the candidate path of the folder name is now in the shared
    table with counter 0.  So in every later state of the table a call of
    [_resolve_naming_collision] with that candidate path returns a numbered
    path, and the first such call returns the path numbered ["(1)"]. *)
Theorem root_folder_name_reserved (w : world) (nr : nat) (ph : option string)
    (fuel : nat) (parent_dir content_id : string) (st : bstate)
    (r : api_response) (errs : list string) (data : content_data) :
  get_response (w_api w (content_url content_id ph)) nr (errors st)
    = (Some r, errs) ->
  response_truthy (ar_status_code r) = true ->
  ar_json r = JsonValue (Some "ok") data ->
  d_has_password data = false \/ d_passwordStatus data = Some "passwordOk" ->
  is_folder (d_type data) = true ->
  basename parent_dir = content_id ->
  pathing_count st !! join parent_dir (default "unknown" (d_name data)) = None ->
  exists st1,
    build_content_tree w nr ph (S fuel) parent_dir content_id st =
      children_loop (w_stop w)
        (fun child_id s => build_content_tree w nr ph fuel parent_dir child_id s)
        parent_dir (d_children data) st1 /\
    made_dirs st1 = (made_dirs st ++ [parent_dir])%list /\
    pathing_count st1 !! join parent_dir (default "unknown" (d_name data))
      = Some 0 /\
    forall st2 dir child_name is_dir,
      later st1 st2 ->
      join dir child_name = join parent_dir (default "unknown" (d_name data)) ->
      exists n, 1 <= n /\
        (resolve dir child_name is_dir st2).1 =
          numbered (join dir child_name) n is_dir /\
        (pathing_count st2 !! join dir child_name = Some 0 -> n = 1).
Proof.
  intros Hget Htruthy Hjson Hpw Hfolder Hbase Hfresh.
  set (name := default "unknown" (d_name data)) in *.
  exists (enter_folder parent_dir content_id name (set_errors errs st)).2.
  assert (enter_folder parent_dir content_id name (set_errors errs st) =
          (parent_dir,
           makedirs parent_dir
             {| files_info := files_info st; errors := errs;
                pathing_count := <[join parent_dir name := 0]> (pathing_count st);
                made_dirs := made_dirs st; stop_checks := stop_checks st |}))
    as Henter.
  { unfold enter_folder, resolve. rewrite resolve_naming_collision_eq.
    cbv zeta. simpl. rewrite Hfresh. simpl.
    apply String.eqb_eq in Hbase. by rewrite Hbase. }
  split; [|split; [|split]].
  - simpl. rewrite Hget, Htruthy, Hjson. simpl.
    assert (d_has_password data &&
            negb (bool_decide (d_passwordStatus data = Some "passwordOk"))
            = false) as ->.
    { destruct Hpw as [-> | ->]; [done|].
      rewrite bool_decide_eq_true_2 by done. by rewrite andb_false_r. }
    rewrite Hfolder. simpl. fold name. by rewrite Henter.
  - by rewrite Henter.
  - rewrite Henter. simpl. apply lookup_insert_eq.
  - intros st2 dir child_name is_dir Hlater Hcand.
    rewrite Henter in Hlater. simpl in Hlater.
    destruct (Hlater (join parent_dir name) 0) as (k & Hk & _).
    { simpl. apply lookup_insert_eq. }
    exists (k + 1). split; [lia|].
    unfold resolve. rewrite resolve_naming_collision_eq. cbv zeta.
    rewrite Hcand, Hk. simpl. replace (k + 1) with (S k) by lia.
    split; [done|]. intros [= ->]. done.
Qed.

(** The folder ["Album"] at the root ["out/ID"] with a file ["Album"] in
    it: the file is registered as ["Album(1)"]. *)
Lemma root_folder_name_reserved_album :
  (exists st1,
     build_content_tree album_world 5 None 2 "out/ID" "ID" (init_bstate []) =
       children_loop (w_stop album_world)
         (fun child_id s =>
            build_content_tree album_world 5 None 1 "out/ID" child_id s)
         "out/ID" (d_children album_data) st1 /\
     made_dirs st1 = (made_dirs (init_bstate []) ++ ["out/ID"])%list /\
     pathing_count st1 !! "out/ID/Album" = Some 0 /\
     forall st2 dir child_name is_dir,
       later st1 st2 ->
       join dir child_name = "out/ID/Album" ->
       exists n, 1 <= n /\
         (resolve dir child_name is_dir st2).1 =
           numbered (join dir child_name) n is_dir /\
         (pathing_count st2 !! join dir child_name = Some 0 -> n = 1)) /\
  files_info <$> build_content_tree album_world 5 None 2 "out/ID" "ID"
                   (init_bstate []) =
    Some [ {| fe_path := "out/ID"; fe_filename := "Album(1)";
              fe_link := "https://x/F1" |} ].
Proof.
  split; [|reflexivity].
  apply (root_folder_name_reserved album_world 5 None 1 "out/ID" "ID"
           (init_bstate []) album_response [] album_data);
    first [reflexivity | left; reflexivity].
Defined.

End ContentTree.

(** ** The chunked fetcher *)

Section Fetcher.
Import Gofile Examples.

(** The statuses of the guard [status_code in (403, 404, 405, 500)] are
    statuses of a falsy response, so the guard is never reached with them:
    [if not response: continue] comes first. *)
Lemma fatal_status_not_truthy (code : Z) :
  response_truthy code = true -> fatal_status code = false.
Proof. unfold response_truthy, fatal_status. lia. Qed.

Lemma download_file_loop_requests (filename : string) (nr : nat)
    (attempts : nat -> attempt) (n : nat) :
  forall i st,
    ds_requests (download_file_loop filename nr attempts i n st).2
      <= ds_requests st + n.
Proof.
  induction n as [|n IH]; intros i st; simpl; [lia|].
  destruct (at_stop (attempts i)); simpl; [lia|].
  destruct (get_response _ _ _) as [response errs].
  assert (forall st', ds_requests st' = S (ds_requests st) ->
            ds_requests (download_file_loop filename nr attempts (S i) n st').2
              <= ds_requests st + S n) as Hcont.
  { intros st' Hst'. specialize (IH (S i) st'). lia. }
  destruct response as [r|]; [|by apply Hcont].
  repeat (match goal with
          | |- context [if ?b then _ else _] => destruct b
          | |- context [match ?x with _ => _ end] => destruct x
          end; simpl; try lia; try (by apply Hcont)).
Qed.

(** C7.  In the retry loop of [_download_file], a response whose status is
    not the expected one (200 or 206 without a partial file, 206 with one)
    ends the attempt without an error and the loop goes on with the next
    attempt; the loop makes at most as many requests as it has attempts
    left, [number_retries] in all. *)
Theorem unexpected_status_is_retried (filename : string) (nr : nat)
    (attempts : nat -> attempt) (i n : nat) (st : dstate)
    (r : dl_response) (errs : list string) :
  at_stop (attempts i) = false ->
  get_response (at_get (attempts i)) nr (ds_errors st) = (Some r, errs) ->
  expected_status (default 0 (at_part (attempts i))) (status_code r) = false ->
  download_file_loop filename nr attempts i (S n) st =
    download_file_loop filename nr attempts (S i) n (ds_requested errs st) /\
  ds_requests (download_file filename nr attempts None st).2
    <= ds_requests st + nr.
Proof.
  intros Hstop Hget Hexp. split.
  - simpl. rewrite Hstop, Hget.
    destruct (response_truthy (status_code r)) eqn:Ht; simpl; [|done].
    rewrite (fatal_status_not_truthy _ Ht).
    unfold expected_status in Hexp.
    destruct (default 0 (at_part (attempts i)) =? 0)%nat eqn:Hp; simpl.
    + by rewrite Hexp.
    + apply Nat.eqb_neq in Hp.
      assert ((0 <? default 0 (at_part (attempts i)))%nat = true) as ->
        by (apply Nat.ltb_lt; lia).
      by rewrite Hexp.
  - unfold download_file. apply download_file_loop_requests.
Qed.

(** A server that always answers 404: five requests, no error recorded,
    and the unit fails only when the attempts are used up. *)
Lemma unexpected_status_is_retried_404 :
  (download_file_loop "a.txt" 5 (always 404) 0 5 fresh_dstate =
     download_file_loop "a.txt" 5 (always 404) 1 4
       (ds_requested [] fresh_dstate) /\
   ds_requests (download_file "a.txt" 5 (always 404) None fresh_dstate).2
     <= ds_requests fresh_dstate + 5) /\
  download_file "a.txt" 5 (always 404) None fresh_dstate =
    (false, {| ds_errors := []; ds_files_downloaded := 0; ds_requests := 5 |}).
Proof.
  split; [|reflexivity].
  apply (unexpected_status_is_retried "a.txt" 5 (always 404) 0 4 fresh_dstate
           (reply_with 404) []); reflexivity.
Defined.

End Fetcher.

(** ** The result of the pipeline *)

Section Pipeline.
Import PosixPath Gofile Examples.

(** The result of [download] once the content id is parsed, the account is
    set up and the tree walk has returned without a registered file. *)
Lemma download_no_files (w : world) (fuel nr : nat) (url output_dir : string)
    (password : option string) (content_id : string) (errs : list string)
    (st : bstate) :
  parse_content_id url = Some content_id -> content_id <> "" ->
  set_account_token (w_account w) nr [] = (true, errs) ->
  build_content_tree w nr (hash_password w password) fuel
    (join output_dir content_id) content_id (init_bstate errs) = Some st ->
  files_info st = [] ->
  download w fuel nr url output_dir password =
    Some (match errors st with
          | _ :: _ =>
              {| success := false; files_downloaded := 0; total_files := 0;
                 res_errors := errors st;
                 message := List.last (errors st) "No files found" |}
          | [] =>
              {| success := true; files_downloaded := 0; total_files := 0;
                 res_errors := []; message := "No files found in content" |}
          end).
Proof.
  intros Hid Hne Hacc Hbuild Hfiles. unfold download.
  rewrite Hid. destruct content_id as [|c cid]; [done|].
  rewrite Hacc. simpl. rewrite Hbuild, Hfiles. by destruct (errors st).
Qed.

(** A result of [download] does not depend on the bound of the walk. *)
Lemma download_fuel (w : world) (fuel nr : nat) (url output_dir : string)
    (password : option string) (r : result) :
  download w fuel nr url output_dir password = Some r ->
  download w (S fuel) nr url output_dir password = Some r.
Proof.
  unfold download. destruct (parse_content_id url) as [[|c cid]|]; try done.
  destruct (set_account_token _ _ _) as [ok errs].
  destruct (negb ok); [done|].
  destruct (build_content_tree w nr _ fuel _ _ _) as [st|] eqn:E; [|done].
  by rewrite (build_content_tree_fuel _ _ _ _ _ _ _ _ E).
Qed.

(** C8.  When the tree walk of [download] returns without a registered
    file, [download] returns a result: with a non-empty error list the
    result has [success = False]; with an empty error list it has
    [success = True] and the message ["No files found in content"]. *)
Theorem download_zero_files (w : world) (fuel nr : nat)
    (url output_dir : string) (password : option string)
    (content_id : string) (errs : list string) (st : bstate) :
  parse_content_id url = Some content_id -> content_id <> "" ->
  set_account_token (w_account w) nr [] = (true, errs) ->
  build_content_tree w nr (hash_password w password) fuel
    (join output_dir content_id) content_id (init_bstate errs) = Some st ->
  files_info st = [] ->
  exists r, download w fuel nr url output_dir password = Some r /\
    files_downloaded r = 0 /\ total_files r = 0 /\
    (errors st <> [] -> success r = false /\ res_errors r = errors st) /\
    (errors st = [] ->
       success r = true /\ res_errors r = [] /\
       message r = "No files found in content").
Proof.
  intros Hid Hne Hacc Hbuild Hfiles.
  rewrite (download_no_files _ _ _ _ _ _ _ _ _ Hid Hne Hacc Hbuild Hfiles).
  eexists. split; [reflexivity|].
  destruct (errors st) as [|e es]; simpl; repeat split; try done.
Qed.

(** An empty folder gives a successful result with nothing to do; a
    content that cannot be fetched gives a failure. *)
Lemma download_zero_files_examples :
  (exists r,
     download empty_folder_world 3 5 "https://gofile.io/d/ID" "out" None
       = Some r /\
     files_downloaded r = 0 /\ total_files r = 0 /\
     success r = true /\ res_errors r = [] /\
     message r = "No files found in content") /\
  (exists r,
     download empty_folder_world 3 5 "https://gofile.io/d/ZZ" "out" None
       = Some r /\
     files_downloaded r = 0 /\ total_files r = 0 /\
     success r = false /\ res_errors r <> []).
Proof.
  split.
  - destruct (download_zero_files empty_folder_world 3 5
                "https://gofile.io/d/ID" "out" None "ID" []
                (default (init_bstate [])
                   (build_content_tree empty_folder_world 5 None 3
                      "out/ID" "ID" (init_bstate [])))
                eq_refl ltac:(discriminate) eq_refl eq_refl eq_refl)
      as (r & Hr & Hd & Ht & _ & Hok).
    exists r. split; [exact Hr|]. split; [exact Hd|]. split; [exact Ht|].
    apply Hok. reflexivity.
  - destruct (download_zero_files empty_folder_world 3 5
                "https://gofile.io/d/ZZ" "out" None "ZZ" []
                (default (init_bstate [])
                   (build_content_tree empty_folder_world 5 None 3
                      "out/ZZ" "ZZ" (init_bstate [])))
                eq_refl ltac:(discriminate) eq_refl eq_refl eq_refl)
      as (r & Hr & Hd & Ht & Hfail & _).
    exists r. split; [exact Hr|]. split; [exact Hd|]. split; [exact Ht|].
    destruct Hfail as [Hs He]; [discriminate|]. split; [exact Hs|].
    rewrite He. discriminate.
Defined.

End Pipeline.

(** ** The runner *)

Section Runner.
Import Queue Examples.

(** In the read loop a runner only moves when the subprocess gives it
    something: a line, an error, or the end of the output. *)
Lemma reading_waits_for_output (i : rinput) (fc : nat) (la : Z) (pid : nat)
    (j : job) :
  is_Some (runner_step i (RReading fc la pid) j) ->
  (exists line t_read t_check now, i = InLine line t_read t_check now) \/
  (exists msg, i = InReadError msg) \/
  (exists code sync_error, i = InEof code sync_error).
Proof.
  destruct i; simpl; intros [x Hx]; try discriminate; eauto 10.
Qed.

Lemma parse_line_status (line : string) (fc : nat) (j : job) :
  status (parse_line line fc j).2 = status j /\
  completed_at (parse_line line fc j).2 = completed_at j /\
  process (parse_line line fc j).2 = process j.
Proof.
  unfold parse_line.
  repeat (match goal with |- context [if ?b then _ else _] => destruct b end);
    done.
Qed.

(** C2, where the code departs from it.  The stall test of the read loop
    compares the clock with the time of the line that was just read, so it
    only measures the time spent on that line: whatever the time since the
    previous line ([last_activity]), a line handled within the window leaves
    the job running, with no call of [terminate] and no status written. *)
Theorem stall_test_ignores_silence (fc : nat) (last_activity : Z) (pid : nat)
    (j : job) (line : string) (t_read t_check : Z) (now : timestamp) :
  status j <> Paused ->
  (t_check - t_read <= timeout_minutes * 60)%Z ->
  exists fc' j',
    runner_step (InLine line t_read t_check now)
      (RReading fc last_activity pid) j
      = Some (RReading fc' t_read pid, j', []) /\
    status j' = status j /\ completed_at j' = completed_at j.
Proof.
  intros Hp Ht. simpl.
  rewrite bool_decide_eq_false_2 by done.
  destruct (if (0 <? PyStr.len (PyStr.strip line))%nat
            then parse_line (PyStr.strip line) fc j else (fc, j))
    as [fc' j'] eqn:E.
  assert ((timeout_minutes * 60 <? t_check - t_read)%Z = false) as ->
    by (apply Z.ltb_ge; lia).
  exists fc', j'. split; [done|].
  destruct (0 <? PyStr.len (PyStr.strip line))%nat.
  - pose proof (parse_line_status (PyStr.strip line) fc j) as (Hs & Hc & _).
    rewrite E in Hs, Hc. done.
  - by injection E as <- <-.
Qed.

(** A line that arrives 1000 seconds after the previous one does not end
    the job; the whole execution ends as completed, and [terminate] is
    never called. *)
Lemma stall_test_ignores_silence_1000 :
  (exists fc' j',
     runner_step (InLine ("b.jpg" +:+ newline) 1001 1001 "2026-01-01T00:16:41")
       (RReading 1 1 7) bob_job
       = Some (RReading fc' 1001 7, j', []) /\
     status j' = status bob_job /\ completed_at j' = completed_at bob_job) /\
  (fun r => (r.1.1, status r.1.2, message r.1.2, terminations r.2))
    <$> run_download stalled_inputs bob_job
    = Some (RDone, Completed, "Completed! Downloaded 2 files", []).
Proof.
  split; [|reflexivity].
  apply (stall_test_ignores_silence 1 1 7 bob_job);
    [discriminate | unfold timeout_minutes; lia].
Defined.

Lemma notifications_app (e1 e2 : list effect) :
  notifications (e1 ++ e2) = (notifications e1 ++ notifications e2)%list.
Proof. apply omap_app. Qed.

(** Only the [finally] clause notifies, and with a bound [files_count] it
    notifies exactly once. *)
Lemma run_finally_notifies (now : timestamp) (fc : nat) (j : job) :
  length (notifications (run_finally now (Some fc) j).2) = 1.
Proof.
  unfold run_finally. simpl.
  destruct (status j); simpl; try done. by destruct (0 <? fc)%nat.
Qed.

Lemma runner_step_notifications (i : rinput) (pc pc' : runner_pc)
    (j j' : job) (effs : list effect) :
  runner_step i pc j = Some (pc', j', effs) ->
  match pc with
  | RStart =>
      notifications effs = [] /\
      (pc' = RDone \/ pc' = RFinally None \/ exists fc la pid, pc' = RReading fc la pid)
  | RReading _ _ _ =>
      notifications effs = [] /\
      ((exists fc la pid, pc' = RReading fc la pid) \/
       (exists fc, pc' = RFinally (Some fc)))
  | RFinally (Some _) => length (notifications effs) = 1 /\ pc' = RDone
  | RFinally None => pc' = RDone
  | RDone => False
  end.
Proof.
  destruct pc as [|fc la pid|[fc|]|]; destruct i; simpl; try discriminate.
  - intros [= <- <- <-]. eauto.
  - intros [= <- <- <-]. eauto.
  - intros [= <- <- <-]. eauto 10.
  - destruct (bool_decide (status j = Paused)).
    + intros [= <- <- <-]. eauto 10.
    + destruct (if (0 <? _)%nat then _ else _) as [fc' j1].
      destruct (_ <? _)%Z; intros [= <- <- <-]; eauto 10.
  - intros [= <- <- <-]. eauto 10.
  - destruct (returncode =? 0)%Z; [destruct sync_error|];
      intros [= <- <- <-]; eauto 10.
  - pose proof (run_finally_notifies now fc j) as H.
    destruct (run_finally now (Some fc) j) as [j1 e1].
    intros [= <- <- <-]. done.
  - destruct (run_finally now None j) as [j1 e1]. by intros [= <- <- <-].
Qed.

Lemma run_download_among_notifications (ins : list ((job -> job) * rinput)) :
  forall pc j j' effs,
    run_download_among ins pc j = Some (RDone, j', effs) ->
    match pc with
    | RReading _ _ _ | RFinally (Some _) => length (notifications effs) = 1
    | RDone => notifications effs = []
    | _ => True
    end.
Proof.
  induction ins as [|[others i] ins IH]; intros pc j j' effs; simpl.
  - intros [= -> <- <-]. done.
  - destruct (runner_step i pc (others j)) as [[[pc1 j1] e1]|] eqn:Hstep;
      [|done].
    destruct (run_download_among ins pc1 j1) as [[[pc2 j2] e2]|] eqn:Hrun;
      [|done].
    intros [= -> <- <-].
    apply runner_step_notifications in Hstep. apply IH in Hrun.
    rewrite notifications_app, length_app.
    destruct pc as [|fc la pid|[fc|]|]; try done.
    + destruct Hstep as [-> [(fc' & la' & pid' & ->)|(fc' & ->)]];
        simpl in *; lia.
    + destruct Hstep as [Hn ->]. rewrite Hrun. simpl. lia.
Qed.

(** C4, as the code has it.  A runner that reads a line while the status
    of its job is ['paused'] terminates the subprocess, sets the message
    ['Download paused'] and leaves the [try] block without writing a
    status; the [finally] clause then stamps [completed_at], clears the
    process handle and sends the failure notification with that message,
    the status staying ['paused'].  Every execution that started its
    subprocess and ran to its end sent exactly one notification, whatever
    the other threads wrote on the job meanwhile. *)
Theorem pause_path_and_notification :
  (forall fc la pid j line t_read t_check now,
     status j = Paused ->
     runner_step (InLine line t_read t_check now) (RReading fc la pid) j =
       Some (RFinally (Some fc), set_message "Download paused" j,
             [Terminate pid])) /\
  (forall now fc j,
     status j = Paused ->
     exists j',
       run_finally now (Some fc) j =
         (j', [Notify (Failure (display_username j) (platform j) (message j))])
       /\ status j' = Paused /\ completed_at j' = Some now
       /\ process j' = None) /\
  (forall ins others pid t j j' effs,
     run_download_among ((others, InPopen pid t) :: ins) RStart j
       = Some (RDone, j', effs) ->
     length (notifications effs) = 1).
Proof.
  split; [|split].
  - intros fc la pid j line t_read t_check now Hp. simpl.
    by rewrite bool_decide_eq_true_2.
  - intros now fc j Hp. unfold run_finally. simpl. rewrite Hp.
    eexists. split; [reflexivity|]. done.
  - intros ins others pid t j j' effs. simpl.
    destruct (run_download_among ins _ _) as [[[pc2 j2] e2]|] eqn:Hrun;
      [|done].
    intros [= -> <- <-]. apply run_download_among_notifications in Hrun.
    exact Hrun.
Qed.

(** The sentence of the specification fails on the pause path: the runner that
    saw ['paused'] sends a failure notification, so it is not true that an
    execution which ends on a status that is not terminal sends none. *)
Lemma pause_path_notifies :
  (fun r => (r.1.1, status r.1.2, notifications r.2))
    <$> run_download_among paused_inputs RStart bob_job
    = Some (RDone, Paused, [Failure "bob" "instagram" "Download paused"]) /\
  ~ (forall ins j j' effs,
       run_download_among ins RStart j = Some (RDone, j', effs) ->
       status j' <> Completed -> status j' <> Failed ->
       notifications effs = []).
Proof.
  split; [vm_compute; reflexivity|]. intros H.
  assert (run_download_among paused_inputs RStart bob_job
          = Some (RDone, paused_result.1.2, paused_result.2)) as Hrun
    by (vm_compute; reflexivity).
  specialize (H _ _ _ _ Hrun).
  assert (notifications paused_result.2 = []) as Hn
    by (apply H; vm_compute; discriminate).
  vm_compute in Hn. discriminate Hn.
Qed.

Lemma pause_path_and_notification_paused :
  runner_step (InLine ("b.jpg" +:+ newline) 2 2 "2026-01-01T00:00:02")
    (RReading 1 1 7) (set_status Paused bob_job) =
    Some (RFinally (Some 1),
          set_message "Download paused" (set_status Paused bob_job),
          [Terminate 7]) /\
  run_download_among paused_inputs RStart bob_job
    = Some (RDone, paused_result.1.2, paused_result.2) /\
  status paused_result.1.2 = Paused /\
  length (notifications paused_result.2) = 1.
Proof.
  destruct pause_path_and_notification as (Hstep & _ & Hone).
  assert (run_download_among paused_inputs RStart bob_job
          = Some (RDone, paused_result.1.2, paused_result.2)) as Hrun
    by (vm_compute; reflexivity).
  split.
  - apply (Hstep 1 1%Z 7 (set_status Paused bob_job)). reflexivity.
  - split; [exact Hrun|]. split; [vm_compute; reflexivity|].
    exact (Hone (tl paused_inputs) (fun j => j) 7 0%Z bob_job _ _ Hrun).
Defined.

(** When the output of the terminated subprocess ends before any further
    line, the runner does not test for ['paused']: it reads the exit code
    and writes ['failed'] over ['paused']. *)
Lemma pause_then_eof_marks_failed :
  (fun r => (r.1.1, status r.1.2, message r.1.2, notifications r.2))
    <$> run_download_among
          [ (fun j => j, InPopen 7 0);
            (set_status Paused, InEof (-15) None);
            (fun j => j, InFinally "2026-01-01T00:00:03") ]
          RStart bob_job
  = Some (RDone, Failed, "Failed with exit code -15",
          [Failure "bob" "instagram" "Failed with exit code -15"]).
Proof. reflexivity. Qed.

End Runner.

(** ** The queue *)

Section QueueFacts.
Import Queue.

Lemma has_status_true (v : job_status) (h : list job) (a : addr) :
  has_status v h a = true <-> status_at h a = Some v.
Proof. unfold has_status. apply bool_decide_eq_true. Qed.

Lemma count_status_cons (v : job_status) (h : list job) (a : addr)
    (q : list addr) :
  count_status v h (a :: q) =
  (if has_status v h a then 1 else 0) + count_status v h q.
Proof.
  unfold count_status. rewrite filter_cons.
  destruct (has_status v h a) eqn:E.
  - rewrite decide_True by done. done.
  - rewrite decide_False by done. done.
Qed.


(** Writes that make no job of the queue [v] do not raise the count. *)
Lemma count_status_mono (v : job_status) (h h' : list job) (q : list addr) :
  (forall a, a ∈ q -> has_status v h' a = true -> has_status v h a = true) ->
  count_status v h' q <= count_status v h q.
Proof.
  induction q as [|a q IH]; intros H; [done|].
  rewrite !count_status_cons.
  assert (count_status v h' q <= count_status v h q) as Hq.
  { apply IH. intros b Hb. apply H. by right. }
  specialize (H a (list_elem_of_here _ _)).
  destruct (has_status v h' a); [rewrite H by done|]; destruct (has_status v h a); lia.
Qed.







Lemma status_at_insert (h : list job) (a b : addr) (j : job) :
  a < length h ->
  status_at (<[a := j]> h) b =
  if decide (a = b) then Some (status j) else status_at h b.
Proof.
  intros Hlt. unfold status_at. destruct (decide (a = b)) as [->|Hne].
  - by rewrite list_lookup_insert_eq.
  - by rewrite list_lookup_insert_ne.
Qed.

Lemma update_length (a : addr) (f : job -> job) (h : list job) :
  length (update a f h) = length h.
Proof. unfold update. destruct (h !! a); [apply length_insert | done]. Qed.

Lemma update_lookup (a b : addr) (f : job -> job) (h : list job) :
  update a f h !! b = if decide (a = b) then f <$> h !! b else h !! b.
Proof.
  unfold update. destruct (decide (a = b)) as [->|Hne].
  - destruct (h !! b) as [j|] eqn:E; simpl.
    + apply list_lookup_insert_eq. by apply lookup_lt_Some in E.
    + done.
  - destruct (h !! a); [by rewrite list_lookup_insert_ne | done].
Qed.

Lemma status_at_update (a b : addr) (f : job -> job) (h : list job) :
  status_at (update a f h) b =
  if decide (a = b) then status <$> (f <$> h !! b) else status_at h b.
Proof. unfold status_at. rewrite update_lookup. by destruct (decide (a = b)). Qed.


End QueueFacts.

(** Case analysis on a step of the engine. *)
Ltac step_cases H :=
  unfold Queue.step in H;
  repeat match type of H with
         | context [match ?x with _ => _ end] =>
             destruct x eqn:?; try discriminate H
         end;
  try (injection H as <-).

Section QueueInvariants.
Import Queue.









(** *** Writes that do not raise the number of active jobs *)





(** A runner never writes ['active']. *)
Lemma runner_step_not_active (i : rinput) (pc pc' : runner_pc) (j j' : job)
    (effs : list effect) :
  runner_step i pc j = Some (pc', j', effs) ->
  status j' = Active -> status j = Active.
Proof.
  destruct pc as [|fc la pid|fc|]; destruct i; simpl; try discriminate.
  - by intros [= <- <- <-].
  - by intros [= <- <- <-].
  - by intros [= <- <- <-].
  - destruct (bool_decide (status j = Paused)); [by intros [= <- <- <-]|].
    destruct (0 <? PyStr.len (PyStr.strip line))%nat.
    + pose proof (parse_line_status (PyStr.strip line) fc j) as (Hs & _ & _).
      destruct (parse_line (PyStr.strip line) fc j) as [fc' j1]. simpl in Hs.
      destruct (_ <? _)%Z; intros [= <- <- <-]; simpl; [done|].
      by rewrite Hs.
    + destruct (_ <? _)%Z; by intros [= <- <- <-].
  - by intros [= <- <- <-].
  - destruct (returncode =? 0)%Z; [destruct sync_error|];
      by intros [= <- <- <-].
  - unfold run_finally. simpl.
    destruct (status j) eqn:E; simpl;
      [| | |destruct fc as [n|]; [destruct (0 <? n)%nat|] |];
      intros [= <- <- <-]; simpl; congruence.
Qed.



(** The tests of a pass let it through only below [max_concurrent]. *)
Lemma process_queue_check_admit (v : Z) (h : list job) (q : list addr)
    (a : addr) :
  process_queue_check v h q = Admit a ->
  (Z.of_nat (count_status Active h q) < v)%Z /\ next_queued h q = Some a.
Proof.
  unfold process_queue_check. destruct (next_queued h q) as [b|].
  - destruct (v <=? Z.of_nat (count_status Active h q))%Z eqn:E.
    + by destruct (_ =? 0)%nat.
    + intros [= ->]. apply Z.leb_gt in E. done.
  - by destruct (_ =? 0)%nat.
Qed.

(** *** The cap *)


Lemma drains_spawn (ds : list drain_pc) (tid : nat) (d : drain_pc) :
  (ds ++ [DInit])%list !! tid = Some d -> ds !! tid = Some d \/ d = DInit.
Proof.
  intros [H|[_ H]]%lookup_app_Some; [by left|].
  apply list_lookup_singleton_Some in H as [_ <-]. by right.
Qed.





End QueueInvariants.

(** ** The scheduler *)

Section Scheduler.
Import Queue Examples.




(** The search of a pass returns the first queued job of the list. *)
Lemma next_queued_first (h : list job) (q : list addr) (a : addr) :
  next_queued h q = Some a ->
  exists q1 q2, q = (q1 ++ a :: q2)%list /\
    (forall b, b ∈ q1 -> status_at h b <> Some Queued) /\
    status_at h a = Some Queued.
Proof.
  induction q as [|b q IH]; simpl; [done|].
  destruct (has_status Queued h b) eqn:E.
  - intros [= ->]. exists [], q. split; [done|]. split.
    + intros c Hc. by apply elem_of_nil in Hc.
    + by apply has_status_true.
  - intros H. destruct (IH H) as (q1 & q2 & -> & Hq1 & Ha).
    exists (b :: q1), q2. split; [done|]. split; [|done].
    intros c [->|Hc]%elem_of_cons; [|by apply Hq1].
    intros Hb. apply has_status_true in Hb. congruence.
Qed.




(** *** The setting *)

Lemma step_keeps_drain_cap (e : event) (s s' : sys) (tid : nat)
    (d : drain_pc) (v : Z) :
  step e s = Some s' ->
  drains s !! tid = Some d -> drain_cap d = Some v ->
  exists d', drains s' !! tid = Some d' /\
    (drain_cap d' = Some v \/ d' = DDone).
Proof.
  intros H Hd Hv.
  assert (forall tid' d0 d1,
            drains s !! tid' = Some d0 ->
            (tid' = tid -> drain_cap d1 = Some v \/ d1 = DDone) ->
            exists d', <[tid' := d1]> (drains s) !! tid = Some d' /\
              (drain_cap d' = Some v \/ d' = DDone)) as Hins.
  { intros tid' d0 d1 Hd0 Hsame. destruct (decide (tid' = tid)) as [->|Hne].
    - exists d1. split; [|by apply Hsame].
      apply list_lookup_insert_eq. by apply lookup_lt_Some in Hd.
    - exists d. split; [by rewrite list_lookup_insert_ne | by left]. }
  assert (exists d', (drains s ++ [DInit])%list !! tid = Some d' /\
            (drain_cap d' = Some v \/ d' = DDone)) as Happ.
  { exists d. split; [|by left]. rewrite lookup_app_l; [done|].
    by apply lookup_lt_Some in Hd. }
  destruct e; step_cases H; simpl; eauto;
    match goal with
    | Ht : drains s !! ?t = Some ?d0 |- context [<[?t := ?d1]> (drains s)] =>
        apply (Hins t d0 d1 Ht); intros ->;
        rewrite Hd in Ht; injection Ht as ->; simpl in Hv;
        try discriminate Hv; eauto
    end.
Qed.

(** C5, as the code has it.  [process_queue] reads the setting once, when
    the thread starts; the value it holds is not changed by any later step
    of the engine, a change of the setting included; each pass lets the
    thread through exactly when a queued job exists and the number of
    active jobs is below the value the thread holds.  A change of the
    setting touches neither the jobs, nor the queue, nor the threads. *)
Theorem max_concurrent_read_once :
  (forall s tid v,
     drains s !! tid = Some DInit -> max_concurrent_downloads s = Some v ->
     exists s', step (EvDrainRead tid) s = Some s' /\
       drains s' !! tid = Some (DLoop v)) /\
  (forall e s s' tid d v,
     step e s = Some s' ->
     drains s !! tid = Some d -> drain_cap d = Some v ->
     exists d', drains s' !! tid = Some d' /\
       (drain_cap d' = Some v \/ d' = DDone)) /\
  (forall s s' tid v,
     drains s !! tid = Some (DLoop v) ->
     step (EvDrainCheck tid) s = Some s' ->
     (exists a, drains s' !! tid = Some (DMark v a)) <->
     ((Z.of_nat (active_count s) < v)%Z /\
      is_Some (next_queued (heap s) (download_queue s)))) /\
  (forall v s, exists s',
     step (EvSetSetting v) s = Some s' /\
     max_concurrent_downloads s' = v /\
     heap s' = heap s /\ download_queue s' = download_queue s /\
     drains s' = drains s /\ runners s' = runners s).
Proof.
  split; [|split; [apply step_keeps_drain_cap|split]].
  - intros s tid v Hd Hv. unfold step. rewrite Hd, Hv. eexists.
    split; [reflexivity|]. simpl. apply list_lookup_insert_eq.
    by apply lookup_lt_Some in Hd.
  - intros s s' tid v Hd. unfold step. rewrite Hd.
    assert (tid < length (drains s)) as Htid by (by apply lookup_lt_Some in Hd).
    destruct (lock_free s); [|done].
    unfold process_queue_check, active_count.
    destruct (next_queued (heap s) (download_queue s)) as [a|].
    + destruct (v <=? Z.of_nat (count_status Active (heap s) (download_queue s)))%Z
        eqn:E.
      * apply Z.leb_le in E.
        destruct (_ =? 0)%nat; intros [= <-]; simpl; split.
        -- rewrite list_lookup_insert_eq by done. by intros [a' [=]].
        -- intros [Hlt _]. lia.
        -- rewrite Hd. by intros [a' [=]].
        -- intros [Hlt _]. lia.
      * apply Z.leb_gt in E. intros [= <-]. simpl.
        rewrite list_lookup_insert_eq by done. split; [|by eauto].
        intros _. split; [done | by eexists].
    + destruct (_ =? 0)%nat; intros [= <-]; simpl; split.
      * rewrite list_lookup_insert_eq by done. by intros [a' [=]].
      * by intros [_ [a' [=]]].
      * rewrite Hd. by intros [a' [=]].
      * by intros [_ [a' [=]]].
  - intros v s. eexists. split; [reflexivity|]. done.
Qed.

(** The sentence of the specification fails: after the setting was lowered to 1,
    the thread that had read 2 makes a second job active, so it is not true
    that a pass lets a thread through only below the current value of the
    setting. *)
Lemma lowered_setting_not_seen :
  (fun s => (max_concurrent_downloads s, active_count s, drains s !! 0))
    <$> run lowered_trace (init_sys (Some 2%Z))
    = Some (Some 1%Z, 2, Some (DDispatch 2 1)) /\
  ~ (forall evs s s' tid v a n,
       run evs (init_sys (Some 2%Z)) = Some s ->
       step (EvDrainCheck tid) s = Some s' ->
       drains s' !! tid = Some (DMark v a) ->
       max_concurrent_downloads s = Some n ->
       (Z.of_nat (active_count s) < n)%Z).
Proof.
  split; [vm_compute; reflexivity|]. intros H.
  assert (run (take 7 lowered_trace) (init_sys (Some 2%Z)) = Some lowered_state)
    as Hrun by (vm_compute; reflexivity).
  assert (step (EvDrainCheck 0) lowered_state = Some lowered_checked_state)
    as Hstep by (vm_compute; reflexivity).
  assert (drains lowered_checked_state !! 0 = Some (DMark 2 1)) as Hd
    by (vm_compute; reflexivity).
  assert (max_concurrent_downloads lowered_state = Some 1%Z) as Hs
    by (vm_compute; reflexivity).
  specialize (H _ _ _ _ _ _ _ Hrun Hstep Hd Hs).
  vm_compute in H. discriminate H.
Qed.

Lemma max_concurrent_read_once_lowered :
  run (take 7 lowered_trace) (init_sys (Some 2%Z)) = Some lowered_state /\
  max_concurrent_downloads lowered_state = Some 1%Z /\
  drains lowered_state !! 0 = Some (DLoop 2) /\
  step (EvDrainCheck 0) lowered_state = Some lowered_checked_state /\
  drains lowered_checked_state !! 0 = Some (DMark 2 1) /\
  ((exists a, drains lowered_checked_state !! 0 = Some (DMark 2 a)) <->
   ((Z.of_nat (active_count lowered_state) < 2)%Z /\
    is_Some (next_queued (heap lowered_state) (download_queue lowered_state)))).
Proof.
  destruct max_concurrent_read_once as (_ & _ & Hpass & _).
  assert (drains lowered_state !! 0 = Some (DLoop 2)) as Hd
    by (vm_compute; reflexivity).
  assert (step (EvDrainCheck 0) lowered_state = Some lowered_checked_state)
    as Hstep by (vm_compute; reflexivity).
  split; [vm_compute; reflexivity|]. split; [vm_compute; reflexivity|].
  split; [exact Hd|]. split; [exact Hstep|]. split; [vm_compute; reflexivity|].
  exact (Hpass lowered_state lowered_checked_state 0 2%Z Hd Hstep).
Defined.

(** *** The file counter *)












End Scheduler.

(* ===================================================================== *)
(** * Part III.  Further properties of the same code                      *)
(* ===================================================================== *)

(** ** Requests with retries *)

Section Requests.
Import Gofile.

Lemma get_response_from_errors {R} (tries : nat -> get_try R) (n : nat) :
  forall i errors,
    (get_response_from tries i n errors).2 =
    (errors ++ raised_before_response tries i n)%list.
Proof.
  induction n as [|n IH]; intros i errors; simpl.
  - by rewrite app_nil_r.
  - destruct (tries i) as [|msg|r]; simpl.
    + apply IH.
    + rewrite IH. by rewrite <- app_assoc.
    + by rewrite app_nil_r.
Qed.

Lemma get_response_from_first {R} (tries : nat -> get_try R) (n : nat) :
  forall i errors,
    match (get_response_from tries i n errors).1 with
    | Some r =>
        exists k, i <= k < i + n /\ tries k = TryOk r /\
          forall j, i <= j < k -> forall r', tries j <> TryOk r'
    | None => forall k r, i <= k < i + n -> tries k <> TryOk r
    end.
Proof.
  induction n as [|n IH]; intros i errors; simpl.
  - intros k r Hk. lia.
  - destruct (tries i) as [|msg|r] eqn:E; simpl.
    + specialize (IH (S i) errors).
      destruct (get_response_from tries (S i) n errors).1 as [r|].
      * destruct IH as (k & Hk & Hok & Hbefore).
        exists k. split; [lia|]. split; [done|].
        intros j Hj r'. destruct (decide (j = i)) as [->|Hne]; [congruence|].
        apply Hbefore. lia.
      * intros k r Hk. destruct (decide (k = i)) as [->|Hne]; [congruence|].
        apply IH. lia.
    + specialize (IH (S i) (errors ++ [msg])%list).
      destruct (get_response_from tries (S i) n (errors ++ [msg])).1 as [r|].
      * destruct IH as (k & Hk & Hok & Hbefore).
        exists k. split; [lia|]. split; [done|].
        intros j Hj r'. destruct (decide (j = i)) as [->|Hne]; [congruence|].
        apply Hbefore. lia.
      * intros k r Hk. destruct (decide (k = i)) as [->|Hne]; [congruence|].
        apply IH. lia.
    + exists i. split; [lia|]. split; [done|]. intros j Hj. lia.
Qed.

(** X1.  [_get_response] returns the response of the first call that returns
    one, among at most [number_retries] calls, and [None] when none of them
    does; it appends to the error list the messages of the exceptions
    raised before that, in order, timeouts left out, and removes nothing
    from it. *)
Theorem get_response_first_response {R} (tries : nat -> get_try R)
    (number_retries : nat) (errors : list string) :
  (get_response tries number_retries errors).2 =
    (errors ++ raised_before_response tries 0 number_retries)%list /\
  match (get_response tries number_retries errors).1 with
  | Some r =>
      exists k, k < number_retries /\ tries k = TryOk r /\
        forall j, j < k -> forall r', tries j <> TryOk r'
  | None => forall k r, k < number_retries -> tries k <> TryOk r
  end.
Proof.
  unfold get_response. split; [apply get_response_from_errors|].
  pose proof (get_response_from_first tries number_retries 0 errors) as H.
  destruct (get_response_from tries 0 number_retries errors).1 as [r|].
  - destruct H as (k & Hk & Hok & Hbefore). exists k.
    split; [lia|]. split; [done|]. intros j Hj. apply Hbefore. lia.
  - intros k r Hk. apply H. lia.
Qed.

Lemma get_response_prefix {R} (tries : nat -> get_try R) (n : nat)
    (errors : list string) :
  errors `prefix_of` (get_response tries n errors).2.
Proof.
  unfold get_response. rewrite get_response_from_errors.
  by apply prefix_app_r.
Qed.



End Requests.

(** ** The chunked fetcher, continued *)

Section FetcherOutcome.
Import Gofile.

Lemma stream_done (cs : list chunk_event) :
  forall downloaded size,
    stream cs downloaded = StreamDone size ->
    size = downloaded + chunk_bytes cs /\
    Forall (fun c => exists n, c = Chunk false n) cs.
Proof.
  induction cs as [|c cs IH]; intros downloaded size; simpl.
  - intros [= <-]. split; [lia | constructor].
  - destruct c as [[|] n| |]; try discriminate.
    intros H. destruct (IH _ _ H) as [-> Hall]. split; [lia|].
    constructor; [by eexists | done].
Qed.

Lemma get_response_fst {R} (tries : nat -> get_try R) (n : nat) :
  forall i e1 e2,
    (get_response_from tries i n e1).1 = (get_response_from tries i n e2).1.
Proof.
  induction n as [|n IH]; intros i e1 e2; simpl; [done|].
  destruct (tries i); simpl; [apply IH | apply IH | done].
Qed.

Section Loop.
Variable filename : string.
Variable nr : nat.
Variable attempts : nat -> attempt.

Lemma download_file_loop_outcome (n : nat) :
  forall i st,
    let res := download_file_loop filename nr attempts i n st in
    ds_files_downloaded res.2 =
      ds_files_downloaded st + (if res.1 then 1 else 0) /\
    ds_errors st `prefix_of` ds_errors res.2 /\
    (res.1 = true -> exists k, i <= k < i + n /\ completes nr attempts k).
Proof.
  induction n as [|n IH]; intros i st; simpl.
  - split; [lia|]. split; [done|]. discriminate.
  - destruct (at_stop (attempts i)) eqn:Hstop; simpl.
    { split; [lia|]. split; [done|]. discriminate. }
    pose proof (get_response_prefix (at_get (attempts i)) nr (ds_errors st))
      as Hpre.
    pose proof (get_response_fst (at_get (attempts i)) nr 0 (ds_errors st) [])
      as Hfst.
    fold (get_response (at_get (attempts i)) nr (ds_errors st)) in Hfst.
    fold (get_response (at_get (attempts i)) nr []) in Hfst.
    destruct (get_response (at_get (attempts i)) nr (ds_errors st))
      as [response errs]. simpl in Hpre, Hfst.
    assert (forall st1,
              ds_files_downloaded st1 = ds_files_downloaded st ->
              ds_errors st `prefix_of` ds_errors st1 ->
              let res := download_file_loop filename nr attempts (S i) n st1 in
              ds_files_downloaded res.2 =
                ds_files_downloaded st + (if res.1 then 1 else 0) /\
              ds_errors st `prefix_of` ds_errors res.2 /\
              (res.1 = true -> exists k, i <= k < i + S n /\ completes nr attempts k))
      as Hcont.
    { intros st1 Hf He. destruct (IH (S i) st1) as (H1 & H2 & H3).
      split; [by rewrite H1, Hf|]. split; [by etrans|].
      intros Ht. destruct (H3 Ht) as (k & Hk & Hc). exists k.
      split; [lia | done]. }
    assert (forall msg st1,
              ds_errors st `prefix_of` ds_errors st1 ->
              ds_errors st `prefix_of` ds_errors (ds_add_error msg st1))
      as Hadd.
    { intros msg st1 He. simpl. by apply prefix_app_r. }
    destruct response as [r|]; [|by apply Hcont].
    destruct (response_truthy (status_code r)) eqn:Htruthy; simpl;
      [|by apply Hcont].
    destruct (fatal_status (status_code r)); simpl.
    { split; [lia|]. split; [by apply prefix_app_r|]. discriminate. }
    destruct ((default 0 (at_part (attempts i)) =? 0)%nat &&
              negb ((status_code r =? 200)%Z || (status_code r =? 206)%Z))
      eqn:Hfresh; [by apply Hcont|].
    destruct ((0 <? default 0 (at_part (attempts i)))%nat &&
              negb (status_code r =? 206)%Z) eqn:Hrange; [by apply Hcont|].
    assert (expected_status (default 0 (at_part (attempts i))) (status_code r)
            = true) as Hexp.
    { unfold expected_status.
      destruct (default 0 (at_part (attempts i)) =? 0)%nat eqn:Hp; simpl in *.
      - by apply negb_false_iff in Hfresh.
      - apply Nat.eqb_neq in Hp.
        assert ((0 <? default 0 (at_part (attempts i)))%nat = true) as Hlt
          by (apply Nat.ltb_lt; lia).
        rewrite Hlt in Hrange. simpl in Hrange.
        by apply negb_false_iff in Hrange. }
    fold (announced_size (default 0 (at_part (attempts i))) r).
    destruct (announced_size (default 0 (at_part (attempts i))) r)
      as [|e|v] eqn:Hsize; simpl.
    { split; [lia|]. split; [by apply prefix_app_r|]. discriminate. }
    { apply Hcont; [done | by apply Hadd]. }
    destruct (v =? 0)%Z eqn:Hv; simpl.
    { split; [lia|]. split; [by apply prefix_app_r|]. discriminate. }
    destruct (at_open_error (attempts i)) as [e|] eqn:Hopen;
      [apply Hcont; [done | by apply Hadd]|].
    destruct (stream (chunks r) (default 0 (at_part (attempts i))))
      as [size| | |e] eqn:Hstream.
    + destruct (Z.of_nat size =? v)%Z eqn:Heq; [|by apply Hcont].
      destruct (at_move_error (attempts i)) as [e|] eqn:Hmove;
        [apply Hcont; [done | by apply Hadd]|].
      simpl. split; [lia|]. split; [done|]. intros _.
      exists i. split; [lia|].
      apply stream_done in Hstream as [-> Hall].
      apply Z.eqb_eq in Heq. apply Z.eqb_neq in Hv.
      unfold completes. cbv zeta.
      split; [done|]. split; [done|]. split; [done|].
      exists r. rewrite <- Hfst. split; [done|]. split; [done|].
      split; [by rewrite Hsize, Heq|]. split; [lia | done].
    + simpl. split; [lia|]. split; [done|]. discriminate.
    + by apply Hcont.
    + apply Hcont; [done | by apply Hadd].
Qed.

(** X3.  [_download_file] counts the unit as downloaded exactly when it returns
    [True], and never removes a recorded error.  When it returns [True] for
    a file that did not exist yet, some attempt received a response with the
    expected status whose announced size is not zero and equals the size of
    the partial file plus the bytes of all its chunks, with no stop request
    seen and no error on opening or moving the file. *)
Theorem download_file_outcome (st : dstate) :
  (forall existing,
     let res := download_file filename nr attempts existing st in
     ds_files_downloaded res.2 =
       ds_files_downloaded st + (if res.1 then 1 else 0) /\
     ds_errors st `prefix_of` ds_errors res.2) /\
  ((download_file filename nr attempts None st).1 = true ->
   exists k, k < nr /\ completes nr attempts k).
Proof.
  split.
  - intros [[|m]|]; simpl; try (split; [lia | done]);
      destruct (download_file_loop_outcome nr 0 st) as (H1 & H2 & _);
      by split.
  - simpl. intros Ht.
    destruct (download_file_loop_outcome nr 0 st) as (_ & _ & H3).
    destruct (H3 Ht) as (k & Hk & Hc). exists k. split; [lia | done].
Qed.

End Loop.

End FetcherOutcome.

(** ** The content tree, continued *)

Section TreeRecords.
Import PosixPath Gofile Examples.













End TreeRecords.

(** ** Content ids and URLs *)

Section ContentId.
Import PyStr PosixPath Gofile.

Lemma split_char_nonempty (c : ascii) (s : string) : split_char c s <> [].
Proof.
  induction s as [|a s IH]; simpl; [done|].
  destruct (Ascii.eqb a c); [done|]. by destruct (split_char c s).
Qed.

Lemma split_char_no_sep (c : ascii) (s : string) :
  Forall (fun x => has_char c x = false) (split_char c s).
Proof.
  induction s as [|a s IH]; simpl; [by repeat constructor|].
  destruct (Ascii.eqb a c) eqn:E; [by constructor|].
  destruct (split_char c s) as [|f fs]; [by repeat constructor; simpl; rewrite E|].
  apply Forall_cons in IH as [Hf Hfs]. constructor; [|done].
  simpl. by rewrite E, Hf.
Qed.

Lemma split_char_app (c : ascii) (s t : string) :
  split_char c (s +:+ String c t) = (split_char c s ++ split_char c t)%list.
Proof.
  induction s as [|a s IH].
  - simpl. by rewrite Ascii.eqb_refl.
  - rewrite str_app_cons. simpl. destruct (Ascii.eqb a c); [by rewrite IH|].
    rewrite IH. pose proof (split_char_nonempty c s) as Hne.
    by destruct (split_char c s).
Qed.

Lemma split_char_whole (c : ascii) (s : string) :
  has_char c s = false -> split_char c s = [s].
Proof.
  induction s as [|a s IH]; simpl; [done|].
  destruct (Ascii.eqb a c); [done|]. simpl. intros H. by rewrite (IH H).
Qed.

(** [split] and [join] on the same separator are inverse to each other. *)
Lemma join_split_char (c : ascii) (s : string) :
  join_char c (split_char c s) = s.
Proof.
  induction s as [|a s IH]; simpl; [done|].
  pose proof (split_char_nonempty c s) as Hne.
  destruct (Ascii.eqb a c) eqn:E.
  - apply Ascii.eqb_eq in E as ->.
    destruct (split_char c s) as [|f fs]; [done|].
    change (join_char c ("" :: f :: fs)) with (String c (join_char c (f :: fs))).
    by rewrite IH.
  - destruct (split_char c s) as [|f fs]; [done|].
    destruct fs as [|g fs]; simpl in *; by rewrite <- IH.
Qed.

Lemma rstrip_char_whole (c : ascii) (s : string) :
  has_char c s = false -> rstrip_char c s = s.
Proof.
  induction s as [|a s IH]; simpl; [done|].
  destruct (Ascii.eqb a c) eqn:E; [done|]. simpl. intros H.
  rewrite (IH H). by destruct s.
Qed.

Lemma rstrip_char_app (c : ascii) (s t : string) :
  rstrip_char c t <> "" -> rstrip_char c (s +:+ t) = s +:+ rstrip_char c t.
Proof.
  intros Ht. induction s as [|a s IH]; [done|].
  rewrite !str_app_cons. simpl. rewrite IH.
  destruct (s +:+ rstrip_char c t) eqn:E; [|done].
  destruct s; [|by rewrite str_app_cons in E]. by rewrite str_app_nil_l in E.
Qed.

Lemma rstrip_char_sep (c : ascii) (s : string) :
  rstrip_char c (s +:+ String c "") = rstrip_char c s.
Proof.
  induction s as [|a s IH].
  - rewrite str_app_nil_l. simpl. by rewrite Ascii.eqb_refl.
  - rewrite str_app_cons. simpl. by rewrite IH.
Qed.

Lemma index_of_app (x : string) (pre post : list string) :
  x ∉ pre -> index_of x (pre ++ x :: post) = Some (length pre).
Proof.
  induction pre as [|y pre IH]; simpl; intros Hnot.
  - by rewrite String.eqb_refl.
  - apply not_elem_of_cons in Hnot as [Hne Hnot].
    assert (String.eqb x y = false) as -> by (by apply String.eqb_neq).
    by rewrite (IH Hnot).
Qed.

Lemma index_of_Some (x : string) (xs : list string) (i : nat) :
  index_of x xs = Some i ->
  exists pre post, xs = (pre ++ x :: post)%list /\ length pre = i /\ x ∉ pre.
Proof.
  revert i. induction xs as [|y xs IH]; intros i; simpl; [done|].
  destruct (String.eqb x y) eqn:E.
  - intros [= <-]. apply String.eqb_eq in E as ->.
    exists [], xs. split; [done|]. split; [done|]. apply not_elem_of_nil.
  - destruct (index_of x xs) as [k|]; simpl; [|done]. intros [= <-].
    destruct (IH k eq_refl) as (pre & post & -> & Hlen & Hnot).
    exists (y :: pre), post. split; [done|]. split; [simpl; lia|].
    apply not_elem_of_cons. split; [|done]. by apply String.eqb_neq.
Qed.

Lemma parse_content_id_parts (url content_id : string) :
  parse_content_id url = Some content_id <->
  exists pre post,
    split_char "/" (rstrip_char "/" url)
      = (pre ++ "d" :: content_id :: post)%list /\
    "d" ∉ pre.
Proof.
  unfold parse_content_id. split.
  - destruct (index_of "d" _) as [i|] eqn:E; [|done].
    destruct (index_of_Some _ _ _ E) as (pre & post & Hparts & Hlen & Hnot).
    rewrite Hparts, length_app. simpl.
    destruct (i + 1 <? length pre + S (length post))%nat eqn:Hlt; [|done].
    apply Nat.ltb_lt in Hlt. intros [= <-].
    destruct post as [|cid post]; [simpl in Hlt; lia|].
    exists pre, post. split; [|done]. f_equal. f_equal. f_equal.
    rewrite <- Hlen. rewrite app_nth2 by lia.
    by replace (length pre + 1 - length pre) with 1 by lia.
  - intros (pre & post & Hparts & Hnot). rewrite Hparts.
    rewrite (index_of_app "d" pre (content_id :: post) Hnot).
    rewrite length_app. simpl.
    assert ((length pre + 1 <? length pre + S (S (length post)))%nat = true)
      as -> by (apply Nat.ltb_lt; lia).
    rewrite app_nth2 by lia.
    by replace (length pre + 1 - length pre) with 1 by lia.
Qed.

(** X5.  [_parse_content_id] returns the path segment that follows the first
    segment equal to ["d"], once the trailing slashes of the URL are
    removed, and [None] exactly when there is no such pair of segments. *)
Theorem parse_content_id_segment (url : string) :
  (forall content_id,
     parse_content_id url = Some content_id <->
     exists pre post,
       split_char "/" (rstrip_char "/" url)
         = (pre ++ "d" :: content_id :: post)%list /\
       "d" ∉ pre) /\
  (parse_content_id url = None <->
   forall pre content_id post,
     split_char "/" (rstrip_char "/" url)
       = (pre ++ "d" :: content_id :: post)%list ->
     "d" ∈ pre).
Proof.
  split; [intros content_id; apply parse_content_id_parts|].
  destruct (parse_content_id url) as [cid|] eqn:E.
  - split; [done|]. intros H.
    apply parse_content_id_parts in E as (pre & post & Hparts & Hnot).
    by destruct (Hnot (H pre cid post Hparts)).
  - split; [|done]. intros _ pre cid post Hparts.
    destruct (decide ("d" ∈ pre)) as [Hin|Hnot]; [done|].
    assert (parse_content_id url = Some cid) as E'
      by (apply parse_content_id_parts; eauto).
    congruence.
Qed.

Lemma parse_content_id_no_slash (url content_id : string) :
  parse_content_id url = Some content_id -> has_char "/" content_id = false.
Proof.
  intros (pre & post & Hparts & _)%parse_content_id_parts.
  pose proof (split_char_no_sep "/" (rstrip_char "/" url)) as Hall.
  rewrite Hparts in Hall. apply Forall_app in Hall as [_ Hall].
  apply Forall_cons in Hall as [_ Hall]. by apply Forall_cons in Hall as [H _].
Qed.

(** X6.  A URL that ends with ["/d/"] and a content id is parsed back to that
    id, with or without a slash after it. *)
Theorem parse_content_id_of_url (base content_id : string) :
  "d" ∉ split_char "/" base ->
  has_char "/" content_id = false -> content_id <> "" ->
  parse_content_id (base +:+ "/d/" +:+ content_id) = Some content_id /\
  parse_content_id (base +:+ "/d/" +:+ content_id +:+ "/") = Some content_id.
Proof.
  intros Hbase Hid Hne.
  assert (rstrip_char "/" content_id <> "") as Hstrip
    by (by rewrite rstrip_char_whole).
  assert (rstrip_char "/" (base +:+ "/d/" +:+ content_id)
          = base +:+ "/d/" +:+ content_id) as Hr1.
  { rewrite <- str_app_assoc. rewrite rstrip_char_app by done.
    by rewrite rstrip_char_whole. }
  assert (split_char "/" (base +:+ "/d/" +:+ content_id)
          = (split_char "/" base ++ "d" :: content_id :: [])%list) as Hsplit.
  { change (base +:+ "/d/" +:+ content_id)
      with (base +:+ String "/" ("d" +:+ String "/" content_id)).
    rewrite !split_char_app. by rewrite (split_char_whole _ _ Hid). }
  split.
  - apply parse_content_id_parts. exists (split_char "/" base), [].
    split; [|done]. by rewrite Hr1.
  - apply parse_content_id_parts. exists (split_char "/" base), [].
    split; [|done].
    replace (base +:+ "/d/" +:+ content_id +:+ "/")
      with ((base +:+ "/d/" +:+ content_id) +:+ String "/" "")
      by (by rewrite !str_app_assoc).
    rewrite rstrip_char_sep. by rewrite Hr1.
Qed.

Lemma parse_content_id_of_url_gofile :
  parse_content_id "https://gofile.io/d/AbC123" = Some "AbC123" /\
  parse_content_id "https://gofile.io/d/AbC123/" = Some "AbC123".
Proof.
  apply (parse_content_id_of_url "https://gofile.io" "AbC123").
  - vm_compute. intros H. repeat (apply elem_of_cons in H as [H|H];
      [discriminate H|]). by apply elem_of_nil in H.
  - reflexivity.
  - discriminate.
Defined.

End ContentId.

(** ** The root directory of a download *)

Section RootDirectory.
Import PyStr PosixPath Gofile Examples.

Lemma rfind_none (c : ascii) (s : string) :
  has_char c s = false -> rfind c s = (-1)%Z.
Proof.
  induction s as [|a s IH]; simpl; [done|].
  destruct (Ascii.eqb a c); [done|]. simpl. intros H. by rewrite (IH H).
Qed.

Lemma rfind_app_none (c : ascii) (s t : string) :
  has_char c t = false -> rfind c (s +:+ t) = rfind c s.
Proof.
  intros Ht. induction s as [|a s IH].
  - rewrite str_app_nil_l. by apply rfind_none.
  - rewrite str_app_cons. simpl. by rewrite IH.
Qed.

Lemma rfind_last (c : ascii) (s : string) :
  rfind c (s +:+ String c "") = Z.of_nat (String.length s).
Proof.
  induction s as [|a s IH].
  - rewrite str_app_nil_l. simpl. by rewrite Ascii.eqb_refl.
  - rewrite str_app_cons. simpl. rewrite IH.
    destruct (0 <=? Z.of_nat (String.length s))%Z eqn:E; [lia|].
    apply Z.leb_gt in E. lia.
Qed.

Lemma endswith_char_split (c : ascii) (s : string) :
  endswith_char c s = true -> exists s', s = s' +:+ String c "".
Proof.
  induction s as [|a s IH]; simpl; [done|].
  destruct s as [|b s].
  - intros ->%Ascii.eqb_eq. by exists "".
  - intros H. destruct (IH H) as [s' ->]. exists (String a s').
    by rewrite str_app_cons.
Qed.

Lemma drop_app_length (s t : string) : drop (String.length s) (s +:+ t) = t.
Proof.
  induction s as [|a s IH]; [by destruct t|]. rewrite str_app_cons. by simpl.
Qed.

Lemma startswith_sep_has_char (s : string) :
  has_char "/" s = false -> startswith "/" s = false.
Proof.
  destruct s as [|a s]; [done|]. intros H.
  change (has_char "/" (String a s))
    with (Ascii.eqb a "/" || has_char "/" s) in H.
  change (startswith "/" (String a s))
    with (Ascii.eqb "/" a && startswith "" s).
  rewrite Ascii.eqb_sym. by destruct (Ascii.eqb a "/").
Qed.

(** The last component of [join(a, b)] is [b] when [b] has no slash. *)
Lemma basename_join (a b : string) :
  has_char "/" b = false -> basename (join a b) = b.
Proof.
  intros Hb. unfold join, basename, sep.
  rewrite (startswith_sep_has_char b Hb).
  destruct (len a =? 0)%nat eqn:Ha; simpl.
  - destruct a; [|done]. rewrite str_app_nil_l.
    by rewrite (rfind_none _ _ Hb).
  - destruct (endswith_char "/" a) eqn:He.
    + apply endswith_char_split in He as [a' ->].
      rewrite rfind_app_none by done. rewrite rfind_last.
      replace (Z.to_nat (Z.of_nat (String.length a') + 1))
        with (String.length (a' +:+ String "/" "")).
      * apply drop_app_length.
      * rewrite str_app_length. simpl. lia.
    + replace (a +:+ "/" +:+ b) with ((a +:+ String "/" "") +:+ b)
        by (by rewrite str_app_assoc).
      rewrite rfind_app_none by done. rewrite rfind_last.
      replace (Z.to_nat (Z.of_nat (String.length a) + 1))
        with (String.length (a +:+ String "/" "")).
      * apply drop_app_length.
      * rewrite str_app_length. simpl. lia.
Qed.

(** X7.  In [download] the directory of the content is
    [join(output_dir, content_id)] and its last component is the content id
    that was parsed from the URL.  So the first call of
    [_build_content_tree] always meets the root test: a folder at the root
    is walked in that directory itself, which is the directory created for
    it, whatever the name of the folder. *)
Theorem download_root_is_content_dir (url output_dir content_id : string)
    (folder_name : string) (st : bstate) :
  parse_content_id url = Some content_id ->
  basename (join output_dir content_id) = content_id /\
  (enter_folder (join output_dir content_id) content_id folder_name st).1
    = join output_dir content_id /\
  made_dirs
    (enter_folder (join output_dir content_id) content_id folder_name st).2
    = (made_dirs st ++ [join output_dir content_id])%list.
Proof.
  intros Hparse.
  assert (basename (join output_dir content_id) = content_id) as Hbase
    by (by apply basename_join, (parse_content_id_no_slash url)).
  split; [done|]. unfold enter_folder.
  destruct (resolve _ _ _ _) as [ap st1] eqn:Hr. rewrite Hbase.
  rewrite String.eqb_refl. simpl. split; [done|].
  unfold resolve in Hr. destruct (resolve_naming_collision _ _ _ _).
  by injection Hr as <- <-.
Qed.

Lemma download_root_is_content_dir_album :
  basename (join "out" "ID") = "ID" /\
  (enter_folder (join "out" "ID") "ID" "Album" (init_bstate [])).1
    = join "out" "ID" /\
  made_dirs (enter_folder (join "out" "ID") "ID" "Album" (init_bstate [])).2
    = (made_dirs (init_bstate []) ++ [join "out" "ID"])%list.
Proof.
  apply (download_root_is_content_dir "https://gofile.io/d/ID").
  reflexivity.
Defined.

End RootDirectory.

(** ** The result of the pipeline, continued *)

Section PipelineOutcomes.
Import PyStr PosixPath Gofile Examples.

(** X8.  A result of [download] that reports a failure always carries at least
    one error, and a result without files to fetch reports no downloaded
    file. *)
Theorem download_failure_has_error (w : world) (fuel nr : nat)
    (url output_dir : string) (password : option string) (r : result) :
  download w fuel nr url output_dir password = Some r ->
  (success r = false -> res_errors r <> []) /\
  (total_files r = 0 -> files_downloaded r = 0).
Proof.
  unfold download.
  destruct (parse_content_id url) as [[|c cid]|];
    try (intros [= <-]; simpl; by split).
  destruct (set_account_token _ _ _) as [ok errs].
  destruct (negb ok).
  { intros [= <-]. simpl. split; [|done]. by destruct errs. }
  destruct (build_content_tree _ _ _ _ _ _ _) as [st|]; [|done].
  destruct (files_info st) as [|f fs] eqn:Hf.
  - destruct (errors st) as [|e es] eqn:He; intros [= <-]; simpl; by split.
  - destruct (w_pool w (f :: fs) (errors st)) as [downloaded errs'].
    intros [= <-]. simpl. split; [|done].
    destruct errs'; [|done]. by rewrite orb_true_r.
Qed.

Lemma download_failure_has_error_unreachable :
  exists r,
    download empty_folder_world 3 5 "https://gofile.io/d/ZZ" "out" None
      = Some r /\
    success r = false /\ res_errors r <> [].
Proof.
  eexists. split; [reflexivity|]. split; [reflexivity|].
  refine (proj1 (download_failure_has_error empty_folder_world 3 5
                   "https://gofile.io/d/ZZ" "out" None _ eq_refl) eq_refl).
Defined.

(** X9.  When the content of the URL is protected by a password and the server
    does not report the password as correct, [download] fails with the
    password message as its message and last error, whatever password was
    given, and registers no file. *)
Theorem download_password_protected (w : world) (fuel nr : nat)
    (url output_dir : string) (password : option string)
    (content_id : string) (errs errs' : list string) (r : api_response)
    (data : content_data) :
  parse_content_id url = Some content_id -> content_id <> "" ->
  set_account_token (w_account w) nr [] = (true, errs) ->
  get_response
    (w_api w (content_url content_id (hash_password w password))) nr errs
    = (Some r, errs') ->
  response_truthy (ar_status_code r) = true ->
  ar_json r = JsonValue (Some "ok") data ->
  d_has_password data = true ->
  d_passwordStatus data <> Some "passwordOk" ->
  download w (S fuel) nr url output_dir password =
    Some {| success := false; files_downloaded := 0; total_files := 0;
            res_errors :=
              (errs' ++
               ["Content is password protected. Please provide the correct password."])%list;
            message :=
              "Content is password protected. Please provide the correct password." |}.
Proof.
  intros Hid Hne Hacc Hget Htruthy Hjson Hpw Hstatus. unfold download.
  rewrite Hid. destruct content_id as [|c cid]; [done|].
  rewrite Hacc. simpl. rewrite Hget, Htruthy, Hjson. simpl.
  rewrite Hpw. rewrite bool_decide_eq_false_2 by done. simpl.
  match goal with
  | |- context [(errs' ++ [?m])%list] =>
      pose proof (last_last errs' m "No files found") as Hlast;
      destruct (errs' ++ [m])%list as [|e es] eqn:E
  end.
  - by destruct errs'.
  - by rewrite Hlast.
Qed.

Lemma download_password_protected_example :
  download protected_world 1 5 "https://gofile.io/d/ID" "out" (Some "guess") =
    Some {| success := false; files_downloaded := 0; total_files := 0;
            res_errors :=
              ["Content is password protected. Please provide the correct password."];
            message :=
              "Content is password protected. Please provide the correct password." |}.
Proof.
  apply (download_password_protected protected_world 0 5
           "https://gofile.io/d/ID" "out" (Some "guess") "ID" [] []
           protected_response protected_data);
    first [reflexivity | discriminate].
Defined.

(** X10.  When a stop request is pending at the first test of the walk of a
    folder, no file of the folder is registered, and [download] ends like a
    download of an empty content: without a recorded error it reports a
    success with the message ["No files found in content"]. *)
Theorem download_stopped_walk (w : world) (fuel nr : nat)
    (url output_dir : string) (password : option string)
    (content_id : string) (errs errs' : list string) (r : api_response)
    (data : content_data) :
  parse_content_id url = Some content_id -> content_id <> "" ->
  set_account_token (w_account w) nr [] = (true, errs) ->
  get_response
    (w_api w (content_url content_id (hash_password w password))) nr errs
    = (Some r, errs') ->
  response_truthy (ar_status_code r) = true ->
  ar_json r = JsonValue (Some "ok") data ->
  d_has_password data = false \/ d_passwordStatus data = Some "passwordOk" ->
  is_folder (d_type data) = true ->
  w_stop w 0 = true ->
  download w (S fuel) nr url output_dir password =
    Some (match errs' with
          | _ :: _ =>
              {| success := false; files_downloaded := 0; total_files := 0;
                 res_errors := errs';
                 message := List.last errs' "No files found" |}
          | [] =>
              {| success := true; files_downloaded := 0; total_files := 0;
                 res_errors := []; message := "No files found in content" |}
          end).
Proof.
  intros Hid Hne Hacc Hget Htruthy Hjson Hpw Hfolder Hstop. unfold download.
  rewrite Hid. destruct content_id as [|c cid]; [done|].
  rewrite Hacc. simpl. rewrite Hget, Htruthy, Hjson. simpl.
  assert (d_has_password data &&
          negb (bool_decide (d_passwordStatus data = Some "passwordOk"))
          = false) as ->.
  { destruct Hpw as [-> | ->]; [done|].
    rewrite bool_decide_eq_true_2 by done. by rewrite andb_false_r. }
  rewrite Hfolder. simpl.
  destruct (enter_folder _ _ _ _) as [ap st1] eqn:He.
  assert (files_info st1 = [] /\ errors st1 = errs' /\ stop_checks st1 = 0)
    as (Hf & Herr & Hc).
  { unfold enter_folder, resolve in He.
    destruct (resolve_naming_collision _ _ _ _). by injection He as <- <-. }
  destruct (d_children data) as [|ch chs]; simpl.
  - rewrite Hf, Herr. by destruct errs'.
  - rewrite Hc, Hstop. simpl. rewrite Hf, Herr. by destruct errs'.
Qed.

Lemma download_stopped_walk_album :
  download stopped_world 1 5 "https://gofile.io/d/ID" "out" None =
    Some {| success := true; files_downloaded := 0; total_files := 0;
            res_errors := []; message := "No files found in content" |}.
Proof.
  apply (download_stopped_walk stopped_world 0 5 "https://gofile.io/d/ID"
           "out" None "ID" [] [] album_response album_data);
    first [reflexivity | discriminate | left; reflexivity].
Defined.

End PipelineOutcomes.

(** ** Registered paths *)

Section RegisteredPaths.
Import PyStr PosixPath Gofile Examples.

(** X11.  The numbering keeps the results of one candidate path apart, but not
    those of two: when a file is named like the numbered form of another
    file, the second occurrence of the one and the first occurrence of the
    other are given the same path. *)
Theorem numbered_name_is_reused (q q' : lookup) :
  l_is_dir q = false ->
  candidate q' = numbered (candidate q) 1 false ->
  candidate q <> candidate q' /\
  (resolve_all ∅ [q; q; q']).1 = [candidate q; candidate q'; candidate q'].
Proof.
  intros Hfile Hname.
  assert (candidate q <> candidate q') as Hne.
  { rewrite Hname. intros H. apply (f_equal String.length) in H.
    rewrite numbered_length in H. lia. }
  split; [done|]. unfold resolve_all.
  rewrite (resolve_naming_collision_eq ∅). cbv zeta. fold (candidate q).
  rewrite lookup_empty.
  rewrite (resolve_naming_collision_eq (<[candidate q := 0]> ∅)). cbv zeta.
  fold (candidate q). rewrite lookup_insert_eq.
  rewrite resolve_naming_collision_eq. cbv zeta. fold (candidate q').
  rewrite !lookup_insert_ne by done. rewrite lookup_empty.
  simpl. by rewrite Hfile, Hname.
Qed.

Lemma numbered_name_is_reused_example :
  (resolve_all ∅
     [ {| l_parent_dir := "out"; l_child_name := "a.txt"; l_is_dir := false |};
       {| l_parent_dir := "out"; l_child_name := "a.txt"; l_is_dir := false |};
       {| l_parent_dir := "out"; l_child_name := "a(1).txt";
          l_is_dir := false |} ]).1
  = ["out/a.txt"; "out/a(1).txt"; "out/a(1).txt"].
Proof.
  apply (numbered_name_is_reused
           {| l_parent_dir := "out"; l_child_name := "a.txt";
              l_is_dir := false |}
           {| l_parent_dir := "out"; l_child_name := "a(1).txt";
              l_is_dir := false |}); reflexivity.
Defined.

Lemma seps_prefix (d : string) (n : nat) :
  d +:+ "/" = seps n -> d = seps (String.length d).
Proof.
  revert n. induction d as [|a d IH]; intros n; [done|].
  rewrite str_app_cons. destruct n as [|n]; [done|]. simpl.
  intros [= -> H]. by rewrite <- (IH n H).
Qed.

Lemma seps_endswith (n : nat) : endswith_char "/" (seps (S n)) = true.
Proof. induction n as [|n IH]; [done|]. exact IH. Qed.

Lemma rstrip_char_keeps (c : ascii) (s : string) :
  s <> "" -> endswith_char c s = false -> rstrip_char c s = s.
Proof.
  induction s as [|a s IH]; [done|]. intros _ He. simpl.
  destruct s as [|b s].
  - simpl in *. by rewrite He.
  - rewrite IH; [done | done | exact He].
Qed.

Lemma take_app_length (s t : string) : take (String.length s) (s +:+ t) = s.
Proof.
  induction s as [|a s IH]; [by destruct t|].
  rewrite str_app_cons. simpl. by rewrite IH.
Qed.

(** X12.  A path [d/name], with [d] not empty and not ending with a slash and
    [name] without a slash, is registered by [_register_file] under the
    directory [d] and the file name [name], and [_download_file] joins
    them back to the same path. *)
Theorem registered_path_round_trip (d name link : string) (st : bstate) :
  d <> "" -> endswith_char "/" d = false -> has_char "/" name = false ->
  exists e,
    files_info (register_file (d +:+ "/" +:+ name) link st)
      = (files_info st ++ [e])%list /\
    fe_path e = d /\ fe_filename e = name /\ fe_link e = link /\
    entry_path e = d +:+ "/" +:+ name.
Proof.
  intros Hd Hend Hname. eexists. split; [reflexivity|]. simpl.
  assert (rfind sep (d +:+ "/" +:+ name) = Z.of_nat (String.length d)) as Hr.
  { replace (d +:+ "/" +:+ name) with ((d +:+ String "/" "") +:+ name)
      by (by rewrite str_app_assoc).
    unfold sep. rewrite rfind_app_none by done. apply rfind_last. }
  assert (Z.to_nat (Z.of_nat (String.length d) + 1)
          = String.length (d +:+ "/")) as Hlen
    by (rewrite str_app_length; simpl; lia).
  assert (dirname (d +:+ "/" +:+ name) = d) as Hdir.
  { unfold dirname. rewrite Hr, Hlen.
    replace (d +:+ "/" +:+ name) with ((d +:+ "/") +:+ name)
      by (by rewrite str_app_assoc).
    rewrite take_app_length.
    assert ((len (d +:+ "/") =? 0)%nat = false) as ->.
    { apply Nat.eqb_neq. unfold len. rewrite str_app_length. simpl. lia. }
    assert (String.eqb (d +:+ "/") (seps (len (d +:+ "/"))) = false) as ->.
    { apply String.eqb_neq. intros H. apply seps_prefix in H.
      destruct d as [|a d']; [done|]. rewrite H in Hend.
      simpl String.length in Hend. by rewrite seps_endswith in Hend. }
    simpl. unfold sep.
    change (d +:+ "/") with (d +:+ String "/" "").
    rewrite rstrip_char_sep. by apply rstrip_char_keeps. }
  assert (basename (d +:+ "/" +:+ name) = name) as Hbase.
  { unfold basename. rewrite Hr, Hlen.
    replace (d +:+ "/" +:+ name) with ((d +:+ "/") +:+ name)
      by (by rewrite str_app_assoc).
    apply drop_app_length. }
  split; [done|]. split; [done|]. split; [done|].
  unfold entry_path. simpl. rewrite Hdir, Hbase. unfold join.
  rewrite (startswith_sep_has_char name Hname).
  assert ((len d =? 0)%nat = false) as -> by (by destruct d).
  unfold sep. by rewrite Hend.
Qed.

Lemma registered_path_round_trip_example :
  exists e,
    files_info (register_file ("out/ID" +:+ "/" +:+ "a(1).txt") "L"
                  (init_bstate []))
      = (files_info (init_bstate []) ++ [e])%list /\
    fe_path e = "out/ID" /\ fe_filename e = "a(1).txt" /\ fe_link e = "L" /\
    entry_path e = "out/ID" +:+ "/" +:+ "a(1).txt".
Proof.
  apply (registered_path_round_trip "out/ID" "a(1).txt" "L" (init_bstate []));
    first [reflexivity | discriminate].
Defined.

End RegisteredPaths.

(** ** The outcome of a runner *)

Section RunnerOutcome.
Import Queue Examples.

Lemma parse_line_fields (line : string) (fc : nat) (j : job) :
  (parse_line line fc j).1 = fc + (if counts_as_file line then 1 else 0) /\
  files_downloaded (parse_line line fc j).2
    = (if counts_as_file line then fc + 1 else files_downloaded j) /\
  status (parse_line line fc j).2 = status j /\
  username (parse_line line fc j).2 = username j /\
  platform (parse_line line fc j).2 = platform j /\
  process (parse_line line fc j).2 = process j.
Proof.
  unfold parse_line, counts_as_file.
  destruct (PyStr.contains "Downloading" line || PyStr.contains ".jpg" line ||
            PyStr.contains ".mp4" line || PyStr.contains ".png" line).
  - simpl. repeat split; try done.
  - repeat (match goal with |- context [if ?b then _ else _] => destruct b end);
      simpl; repeat split; try done; lia.
Qed.

(** After the thread has ended, it takes no further step. *)
Lemma done_is_final (ins : list rinput) (j : job)
    (r : runner_pc * job * list effect) :
  run_download_from ins RDone j = Some r -> ins = [].
Proof. destruct ins as [|i ins]; [done|]. by destruct i. Qed.

(** From the end of the [try] block the only step is the [finally]
    clause. *)
Lemma finally_is_last (ins : list rinput) (fc : option nat) (j j' : job)
    (effs : list effect) :
  run_download_from ins (RFinally fc) j = Some (RDone, j', effs) ->
  exists now, ins = [InFinally now] /\ run_finally now fc j = (j', effs).
Proof.
  destruct ins as [|i ins]; [by intros [=]|]. destruct i; try done. simpl.
  destruct (run_finally now fc j) as [j1 e1] eqn:Hfin.
  destruct (run_download_from ins RDone j1) as [[[pc2 j2] e2]|] eqn:Hrest;
    [|done].
  pose proof (done_is_final _ _ _ Hrest) as ->. simpl in Hrest.
  injection Hrest as <- <- <-. intros [= <- <-]. exists now.
  by rewrite Hfin, app_nil_r.
Qed.

Lemma run_finally_failed (now : timestamp) (fc : option nat) (j : job) :
  status j = Failed ->
  run_finally now fc j =
    (set_process None (set_completed_at (Some now) j),
     [Notify (Failure (display_username j) (platform j) (message j))]).
Proof. intros H. unfold run_finally. simpl. by rewrite H. Qed.

Lemma run_finally_completed (now : timestamp) (n : nat) (j : job) :
  status j = Completed ->
  run_finally now (Some n) j =
    (set_process None (set_completed_at (Some now) j),
     [Notify (completed_notification j n)]).
Proof.
  intros H. unfold run_finally, completed_notification. simpl. rewrite H.
  by destruct (0 <? n)%nat.
Qed.

Lemma reading_outcome (ins : list rinput) :
  forall fc la pid j j' effs,
    status j <> Paused ->
    run_download_from ins (RReading fc la pid) j = Some (RDone, j', effs) ->
    finished j fc ins j' effs.
Proof.
  induction ins as [|i ins IH]; intros fc la pid j j' effs Hp; [done|].
  destruct i; try done.
  - (* a line *)
    simpl run_download_from. unfold runner_step.
    rewrite bool_decide_eq_false_2 by done.
    set (l := PyStr.strip line).
    pose proof (parse_line_fields l fc j) as (Hfc & Hfd & Hst & Hu & Hpl & _).
    assert (exists fc1 j1,
              (if (0 <? PyStr.len l)%nat then parse_line l fc j else (fc, j))
                = (fc1, j1) /\
              fc1 = fc + (if (0 <? PyStr.len l)%nat && counts_as_file l
                          then 1 else 0) /\
              files_downloaded j1
                = (if (0 <? PyStr.len l)%nat && counts_as_file l
                   then fc + 1 else files_downloaded j) /\
              status j1 = status j /\ username j1 = username j /\
              platform j1 = platform j)
      as (fc1 & j1 & -> & Hfc1 & Hfd1 & Hst1 & Hu1 & Hpl1).
    { destruct (0 <? PyStr.len l)%nat; simpl.
      - destruct (parse_line l fc j) as [fc1 j1]. simpl in *. by exists fc1, j1.
      - exists fc, j. repeat split; try done; lia. }
    destruct (timeout_minutes * 60 <? t_check - t_read)%Z.
    + (* the stall test fires *)
      match goal with
      | |- match run_download_from ins ?pc ?j2 with _ => _ end = _ -> _ =>
          destruct (run_download_from ins pc j2) as [[[pc3 j3] e3]|] eqn:Hrest;
            [|done]
      end.
      intros [= -> <- <-].
      apply finally_is_last in Hrest as (now' & -> & Hfin).
      rewrite run_finally_failed in Hfin by done. injection Hfin as <- <-.
      exists now'. simpl. fold l.
      split; [done|]. split; [done|]. split; [done|]. split; [done|].
      split.
      { rewrite Hfd1.
        destruct ((0 <? PyStr.len l)%nat && counts_as_file l); simpl;
          [lia|done]. }
      right. split; [done|]. unfold display_username. simpl.
      unfold display_username. by rewrite Hu1, Hpl1.
    + (* the loop goes on *)
      destruct (run_download_from ins (RReading fc1 t_read pid) j1)
        as [[[pc3 j3] e3]|] eqn:Hrest; [|done].
      intros [= -> <- <-].
      apply IH in Hrest; [|by rewrite Hst1].
      destruct Hrest as (now' & Hc & Hpr & Hu' & Hpl' & Hfd' & Hcase).
      exists now'. simpl. fold l.
      split; [done|]. split; [done|]. split; [congruence|].
      split; [congruence|]. split.
      { rewrite Hfd', Hfd1, Hfc1.
        destruct ((0 <? PyStr.len l)%nat && counts_as_file l); simpl.
        - destruct (files_seen ins); simpl; lia.
        - by rewrite Nat.add_0_r. }
      assert (fc1 + files_seen ins
              = fc + ((if (0 <? PyStr.len l)%nat && counts_as_file l
                       then 1 else 0) + files_seen ins)) as Hsum by lia.
      destruct Hcase as [(Hs & (ins0 & ->) & Hm & ->)|(Hs & Hn)].
      * left. split; [done|]. split.
        { by exists (InLine line t_read t_check now :: ins0). }
        rewrite <- Hsum. split; [done|].
        unfold completed_notification, display_username.
        by rewrite Hu1, Hpl1.
      * right. split; [done|]. rewrite Hn. unfold display_username.
        by rewrite Hu1, Hpl1.
  - (* [readline] raises *)
    simpl.
    destruct (run_download_from ins _ _) as [[[pc3 j3] e3]|] eqn:Hrest; [|done].
    intros [= -> <- <-].
    apply finally_is_last in Hrest as (now' & -> & Hfin).
    rewrite run_finally_failed in Hfin by done. injection Hfin as <- <-.
    exists now'. simpl. repeat (split; [done|]). right. done.
  - (* the output ends *)
    simpl. destruct (returncode =? 0)%Z eqn:Hrc; [destruct sync_error as [msg|]|].
    + destruct (run_download_from ins _ _) as [[[pc3 j3] e3]|] eqn:Hrest; [|done].
      intros [= -> <- <-].
      apply finally_is_last in Hrest as (now' & -> & Hfin).
      rewrite run_finally_failed in Hfin by done. injection Hfin as <- <-.
      exists now'. simpl. repeat (split; [done|]). right. done.
    + destruct (run_download_from ins _ _) as [[[pc3 j3] e3]|] eqn:Hrest; [|done].
      intros [= -> <- <-].
      apply finally_is_last in Hrest as (now' & -> & Hfin).
      rewrite run_finally_completed in Hfin by done. injection Hfin as <- <-.
      apply Z.eqb_eq in Hrc as ->.
      exists now'. simpl. rewrite Nat.add_0_r. repeat (split; [done|]). left.
      split; [done|]. split; [by exists []|]. done.
    + destruct (run_download_from ins _ _) as [[[pc3 j3] e3]|] eqn:Hrest; [|done].
      intros [= -> <- <-].
      apply finally_is_last in Hrest as (now' & -> & Hfin).
      rewrite run_finally_failed in Hfin by done. injection Hfin as <- <-.
      exists now'. simpl. repeat (split; [done|]). right. done.
Qed.

Lemma run_download_finished (ins : list rinput) (j j' : job)
    (effs : list effect) :
  status j <> Paused ->
  run_download ins j = Some (RDone, j', effs) ->
  (ins = [InMkdirFails] /\ j' = j /\ effs = []) \/
  finished j 0 ins j' effs.
Proof.
  intros Hp. unfold run_download. destruct ins as [|i ins]; [done|].
  destruct i; try done; simpl.
  - (* [mkdir] raises *)
    destruct (run_download_from ins RDone j) as [[[pc3 j3] e3]|] eqn:Hrest;
      [|done].
    pose proof (done_is_final _ _ _ Hrest) as ->. simpl in Hrest.
    injection Hrest as <- <- <-. intros [= <- <-]. by left.
  - (* [Popen] raises *)
    destruct (run_download_from ins _ _) as [[[pc3 j3] e3]|] eqn:Hrest; [|done].
    intros [= -> <- <-].
    apply finally_is_last in Hrest as (now' & -> & Hfin).
    rewrite run_finally_failed in Hfin by done. injection Hfin as <- <-.
    right. exists now'. simpl. repeat (split; [done|]). right. done.
  - (* the subprocess runs *)
    destruct (run_download_from ins _ _) as [[[pc3 j3] e3]|] eqn:Hrest; [|done].
    intros [= -> <- <-]. right.
    apply reading_outcome in Hrest; [|done].
    destruct Hrest as (now' & Hc & Hpr & Hu' & Hpl' & Hfd' & Hcase).
    exists now'. simpl in *. repeat (split; [done|]).
    destruct Hcase as [(Hs & (ins0 & ->) & Hm & ->)|Hf]; [left|by right].
    split; [done|]. split; [by exists (InPopen pid t :: ins0)|]. done.
Qed.

(** X13.  An execution of [run_download] that ends, on a job that is not paused
    meanwhile, either died on [mkdir] before the [try] block and left the
    job as it was, still active and without notification, or it stamped
    [completed_at], cleared the process handle and left the job completed
    or failed.  It is completed only when the subprocess ended with the
    exit code 0 and the last sync was recorded; then the success
    notification follows the record of the last sync.  A failed run sends
    the failure notification with the last message of the job. *)
Theorem run_download_outcome (ins : list rinput) (j j' : job)
    (effs : list effect) :
  status j <> Paused ->
  run_download ins j = Some (RDone, j', effs) ->
  (ins = [InMkdirFails] /\ j' = j /\ effs = []) \/
  (exists now,
     completed_at j' = Some now /\ process j' = None /\
     ((status j' = Completed /\
       (exists ins0, ins = (ins0 ++ [InEof 0 None; InFinally now])%list) /\
       exists n, effs = [LastSync (username j) (platform j);
                         Notify (completed_notification j n)]) \/
      (status j' = Failed /\
       notifications effs
         = [Failure (display_username j) (platform j) (message j')]))).
Proof.
  intros Hp Hrun.
  destruct (run_download_finished ins j j' effs Hp Hrun) as [H|H]; [by left|].
  right. destruct H as (now & Hc & Hpr & _ & _ & _ & Hcase). exists now.
  split; [done|]. split; [done|].
  destruct Hcase as [(Hs & Hins & _ & He)|Hf]; [left|by right].
  split; [done|]. split; [done|]. eauto.
Qed.

(** The execution of [stalled_inputs] ends as completed. *)
Lemma run_download_outcome_stalled :
  exists j' effs,
    run_download stalled_inputs bob_job = Some (RDone, j', effs) /\
    status j' = Completed /\ process j' = None /\
    notifications effs = [NewFiles "bob" "instagram" 2].
Proof.
  assert (run_download stalled_inputs bob_job
          = Some (RDone, stalled_result.1.2, stalled_result.2))
    as Hrun by (vm_compute; reflexivity).
  exists stalled_result.1.2, stalled_result.2. split; [exact Hrun|].
  destruct (run_download_outcome stalled_inputs bob_job
              stalled_result.1.2 stalled_result.2) as [H|H];
    [discriminate | exact Hrun | |].
  - destruct H as (H & _). discriminate H.
  - destruct H as (now & _ & Hpr & _).
    split; [vm_compute; reflexivity|]. split; [exact Hpr|].
    vm_compute. reflexivity.
Defined.

(** X14.  The counter of the job and the number in the message and in the
    notification of a completed run are the number of output lines that the
    read loop took for a file: the stripped lines that are not empty and
    contain ["Downloading"], [".jpg"], [".mp4"] or [".png"].  A run that
    saw no such line leaves the counter of the job as it was. *)
Theorem run_download_counts_files (ins : list rinput) (j j' : job)
    (effs : list effect) :
  status j <> Paused ->
  run_download ins j = Some (RDone, j', effs) ->
  ins <> [InMkdirFails] ->
  files_downloaded j'
    = (if (files_seen ins =? 0)%nat then files_downloaded j
       else files_seen ins) /\
  (status j' = Completed ->
   message j' = "Completed! Downloaded " +:+
                PyStr.str_nat (files_seen ins) +:+ " files" /\
   notifications effs = [completed_notification j (files_seen ins)]).
Proof.
  intros Hp Hrun Hne.
  destruct (run_download_finished ins j j' effs Hp Hrun) as [[H _]|H]; [done|].
  destruct H as (now & _ & _ & _ & _ & Hfd & Hcase). simpl in *.
  split; [done|]. intros Hs.
  destruct Hcase as [(_ & _ & Hm & ->)|(Hf & _)]; [done|congruence].
Qed.

Lemma run_download_counts_files_stalled :
  exists j' effs,
    run_download stalled_inputs bob_job = Some (RDone, j', effs) /\
    files_downloaded j' = 2 /\
    notifications effs = [NewFiles "bob" "instagram" 2].
Proof.
  assert (run_download stalled_inputs bob_job
          = Some (RDone, stalled_result.1.2, stalled_result.2))
    as Hrun by (vm_compute; reflexivity).
  exists stalled_result.1.2, stalled_result.2. split; [exact Hrun|].
  destruct (run_download_counts_files stalled_inputs bob_job
              stalled_result.1.2 stalled_result.2)
    as [Hfd Hc]; [discriminate | exact Hrun | discriminate |].
  split; [exact Hfd|]. apply Hc. vm_compute. reflexivity.
Defined.

End RunnerOutcome.

(** ** The calls on the queue *)

Section QueueCalls.
Import Queue Examples.

Lemma find_job_Some (p : job -> bool) (h : list job) (q : list addr)
    (a : addr) :
  find_job p h q = Some a ->
  a ∈ q /\ exists j, h !! a = Some j /\ p j = true.
Proof.
  induction q as [|b q IH]; simpl; [done|].
  destruct (h !! b) as [j|] eqn:Hb.
  - destruct (p j) eqn:Hp.
    + intros [= <-]. split; [left|]. eauto.
    + intros H. destruct (IH H) as [Hin Hj]. split; [by right | done].
  - intros H. destruct (IH H) as [Hin Hj]. split; [by right | done].
Qed.

Lemma find_job_None (p : job -> bool) (h : list job) (q : list addr) :
  find_job p h q = None ->
  forall a j, a ∈ q -> h !! a = Some j -> p j = false.
Proof.
  induction q as [|b q IH]; simpl; intros H a j Ha Hj.
  - by apply elem_of_nil in Ha.
  - apply elem_of_cons in Ha as [->|Ha].
    + rewrite Hj in H. by destruct (p j).
    + destruct (h !! b) as [j0|]; [destruct (p j0); [done|]|]; by apply (IH H a).
Qed.

Lemma count_status_ext (v : job_status) (h h' : list job) (q : list addr) :
  (forall a, a ∈ q -> has_status v h' a = has_status v h a) ->
  count_status v h' q = count_status v h q.
Proof.
  intros H. apply Nat.le_antisymm; apply count_status_mono; intros a Ha;
    by rewrite (H a Ha).
Qed.

(** A write that takes one job of the queue out of the status [v] lowers
    the count by one. *)
Lemma count_status_one_less (v : job_status) (a : addr) (f : job -> job)
    (h : list job) (q : list addr) (j : job) :
  NoDup q -> a ∈ q -> h !! a = Some j -> status j = v -> status (f j) <> v ->
  count_status v (update a f h) q + 1 = count_status v h q.
Proof.
  intros Hnd Ha Hj Hs Hf.
  assert (has_status v h a = true) as Hold.
  { apply has_status_true. unfold status_at. by rewrite Hj, <- Hs. }
  assert (has_status v (update a f h) a = false) as Hnew.
  { apply not_true_is_false. intros H. apply has_status_true in H.
    rewrite status_at_update, decide_True, Hj in H by done. simpl in H.
    by injection H. }
  assert (forall b, b <> a ->
            has_status v (update a f h) b = has_status v h b) as Hother.
  { intros b Hb. unfold has_status.
    by rewrite status_at_update, decide_False by done. }
  induction q as [|b q IH]; [by apply elem_of_nil in Ha|].
  apply NoDup_cons in Hnd as [Hnotin Hnd]. rewrite !count_status_cons.
  apply elem_of_cons in Ha as [<-|Ha].
  - rewrite Hold, Hnew.
    rewrite (count_status_ext v h (update a f h) q); [lia|].
    intros b Hb. apply Hother. by intros ->.
  - rewrite Hother by (by intros ->). rewrite <- (IH Hnd Ha). lia.
Qed.

(** X15.  When [api_queue_pause] succeeds, it has paused the first active job of
    the queue with that id and has terminated the process that the job
    holds, if any; in a queue without repetition the number of active jobs
    has dropped by one when the call returns, whether or not the runner of
    the job has ended.  When it answers 404, no active job of the queue has
    the id. *)
Theorem api_queue_pause_frees_slot (queue_id : Z) (h : list job)
    (q : list addr) :
  NoDup q ->
  match api_queue_pause queue_id h q with
  | Some (h', effs) =>
      exists a j,
        a ∈ q /\ h !! a = Some j /\ id j = IdInt queue_id /\
        status j = Active /\
        h' = <[a := set_status Paused j]> h /\
        effs = terminate_of j /\
        count_status Active h' q + 1 = count_status Active h q
  | None =>
      forall a j, a ∈ q -> h !! a = Some j ->
        id j = IdInt queue_id -> status j <> Active
  end.
Proof.
  intros Hnd. unfold api_queue_pause.
  destruct (find_job _ h q) as [a|] eqn:Hfind.
  - apply find_job_Some in Hfind as (Ha & j & Hj & Hp).
    apply andb_true_iff in Hp as [Hid Hs].
    apply bool_decide_eq_true in Hid. apply bool_decide_eq_true in Hs.
    exists a, j. split; [done|]. split; [done|]. split; [done|].
    split; [done|]. split; [by unfold update; rewrite Hj|]. split.
    + rewrite update_lookup, decide_True, Hj by done. done.
    + apply (count_status_one_less Active a _ h q j); try done.
  - intros a j Ha Hj Hid Hs.
    pose proof (find_job_None _ _ _ Hfind a j Ha Hj) as Hp. simpl in Hp.
    rewrite !bool_decide_eq_true_2 in Hp by done. done.
Qed.

(** Pausing the job 1 of [mixed_heap] terminates the process 7 and leaves
    no active job. *)
Lemma api_queue_pause_frees_slot_mixed :
  exists h',
    api_queue_pause 1 mixed_heap [0; 1] = Some (h', [Terminate 7]) /\
    count_status Active mixed_heap [0; 1] = 1 /\
    count_status Active h' [0; 1] = 0.
Proof.
  assert (NoDup [0; 1]) as Hnd.
  { apply NoDup_cons. split; [|apply NoDup_singleton].
    intros H%list_elem_of_singleton. discriminate H. }
  pose proof (api_queue_pause_frees_slot 1 mixed_heap [0; 1] Hnd) as H.
  destruct (api_queue_pause 1 mixed_heap [0; 1]) as [[h' effs]|] eqn:E.
  - destruct H as (a & j & _ & _ & _ & _ & _ & _ & Hcount).
    assert (effs = [Terminate 7]) as ->.
    { vm_compute in E. by injection E as _ <-. }
    assert (count_status Active mixed_heap [0; 1] = 1) as Hone
      by (vm_compute; reflexivity).
    exists h'. split; [done|]. split; [done|]. lia.
  - vm_compute in E. discriminate E.
Defined.

Lemma remove_first_other (a b : addr) (q : list addr) :
  a <> b -> b ∈ q -> b ∈ remove_first a q.
Proof.
  intros Hne. induction q as [|c q IH]; simpl; [done|].
  intros [->|Hb]%elem_of_cons.
  - rewrite bool_decide_eq_false_2 by done. left.
  - destruct (bool_decide (a = c)); [done|]. right. by apply IH.
Qed.

(** X16.  The calls [api_queue_pause], [api_queue_resume] and [api_queue_delete]
    compare the id of a job with the integer of the route, so a job whose
    id is a text, as the Telegram handlers build it, is out of their reach:
    whatever [queue_id] is given and whatever the call answers, that job is
    left as it is and stays in the queue. *)
Theorem text_id_job_out_of_reach (queue_id : Z) (h : list job)
    (q : list addr) (a : addr) (j : job) (i : string) :
  h !! a = Some j -> id j = IdStr i ->
  (forall h' effs, api_queue_pause queue_id h q = Some (h', effs) ->
     h' !! a = Some j) /\
  (forall h', api_queue_resume queue_id h q = Some h' -> h' !! a = Some j) /\
  (forall q' effs, api_queue_delete queue_id h q = Some (q', effs) ->
     a ∈ q -> a ∈ q').
Proof.
  intros Hj Hid.
  assert (forall p a0,
            find_job (fun j0 => bool_decide (id j0 = IdInt queue_id) && p j0)
              h q = Some a0 -> a0 <> a) as Hne.
  { intros p a0 H ->. apply find_job_Some in H as (_ & j0 & Hj0 & Hp).
    rewrite Hj in Hj0. injection Hj0 as <-.
    apply andb_true_iff in Hp as [Hp _]. apply bool_decide_eq_true in Hp.
    congruence. }
  split; [|split].
  - intros h' effs. unfold api_queue_pause.
    destruct (find_job _ h q) as [a0|] eqn:Hfind; [|done].
    intros [= <- _]. rewrite update_lookup, decide_False; [done|].
    by apply (Hne (fun j0 => bool_decide (status j0 = Active))).
  - intros h'. unfold api_queue_resume.
    destruct (find_job _ h q) as [a0|] eqn:Hfind; [|done].
    intros [= <-]. rewrite update_lookup, decide_False; [done|].
    by apply (Hne (fun j0 => bool_decide (status j0 = Paused))).
  - intros q' effs. unfold api_queue_delete.
    destruct (find_job _ h q) as [a0|] eqn:Hfind; [|done].
    intros [= <- _]. apply remove_first_other. intros ->.
    apply find_job_Some in Hfind as (_ & j0 & Hj0 & Hp).
    rewrite Hj in Hj0. injection Hj0 as <-.
    apply bool_decide_eq_true in Hp. congruence.
Qed.

Lemma text_id_job_out_of_reach_mixed :
  (forall h' effs, api_queue_pause 1 mixed_heap [0; 1] = Some (h', effs) ->
     h' !! 1 = mixed_heap !! 1) /\
  (forall q' effs, api_queue_delete 1 mixed_heap [0; 1] = Some (q', effs) ->
     1 ∈ q').
Proof.
  destruct (text_id_job_out_of_reach 1 mixed_heap [0; 1] 1
              (new_job (IdStr "tiktok_alice_1767225600") "alice" "tiktok"
                 None None "Waiting to start...")
              "tiktok_alice_1767225600" eq_refl eq_refl)
    as (Hpause & _ & Hdelete).
  split.
  - intros h' effs H. exact (Hpause h' effs H).
  - intros q' effs H. apply (Hdelete q' effs H). right. left.
Defined.

Lemma next_queued_None (h : list job) (q : list addr) :
  next_queued h q = None <->
  forall a, a ∈ q -> status_at h a <> Some Queued.
Proof.
  induction q as [|b q IH]; simpl.
  - split; [|done]. intros _ a Ha. by apply elem_of_nil in Ha.
  - destruct (has_status Queued h b) eqn:E.
    + split; [done|]. intros H. apply has_status_true in E.
      by destruct (H b (list_elem_of_here _ _)).
    + rewrite IH. split.
      * intros H a [->|Ha]%elem_of_cons; [|by apply H].
        intros Hb. apply has_status_true in Hb. congruence.
      * intros H a Ha. apply H. by right.
Qed.

Lemma count_status_zero (v : job_status) (h : list job) (q : list addr) :
  count_status v h q = 0 <-> forall a, a ∈ q -> status_at h a <> Some v.
Proof.
  induction q as [|b q IH].
  - split; [|done]. intros _ a Ha. by apply elem_of_nil in Ha.
  - rewrite count_status_cons. destruct (has_status v h b) eqn:E.
    + split; [lia|]. intros H. apply has_status_true in E.
      by destruct (H b (list_elem_of_here _ _)).
    + simpl. rewrite IH. split.
      * intros H a [->|Ha]%elem_of_cons; [|by apply H].
        intros Hb. apply has_status_true in Hb. congruence.
      * intros H a Ha. apply H. by right.
Qed.

(** X17.  A pass of [process_queue] returns exactly when no job of the queue is
    queued; it sleeps and tries again exactly when a job is queued and the
    number of active jobs has reached [max_concurrent]; otherwise it admits
    the first queued job of the queue. *)
Theorem process_queue_pass_outcome (max_concurrent : Z) (h : list job)
    (q : list addr) :
  (process_queue_check max_concurrent h q = Return <->
   forall a, a ∈ q -> status_at h a <> Some Queued) /\
  (process_queue_check max_concurrent h q = Wait <->
   (exists a, a ∈ q /\ status_at h a = Some Queued) /\
   (max_concurrent <= Z.of_nat (count_status Active h q))%Z) /\
  (forall a, process_queue_check max_concurrent h q = Admit a <->
   next_queued h q = Some a /\
   (Z.of_nat (count_status Active h q) < max_concurrent)%Z).
Proof.
  unfold process_queue_check.
  destruct (next_queued h q) as [b|] eqn:Hnext.
  - assert (b ∈ q /\ status_at h b = Some Queued) as [Hb Hq].
    { clear -Hnext. induction q as [|c q IH]; simpl in *; [done|].
      destruct (has_status Queued h c) eqn:E.
      - injection Hnext as ->. split; [left|]. by apply has_status_true.
      - destruct (IH Hnext) as [Hin Hs]. split; [by right | done]. }
    assert ((count_status Queued h q =? 0)%nat = false) as ->.
    { apply Nat.eqb_neq. rewrite count_status_zero. intros H.
      by destruct (H b Hb). }
    destruct (max_concurrent <=? Z.of_nat (count_status Active h q))%Z eqn:Hle.
    + apply Z.leb_le in Hle. split; [|split].
      * split; [done|]. intros H. by destruct (H b Hb).
      * split; [|done]. intros _. split; [eauto | done].
      * intros a. split; [done|]. intros [_ Hlt]. lia.
    + apply Z.leb_gt in Hle. split; [|split].
      * split; [done|]. intros H. by destruct (H b Hb).
      * split; [done|]. intros [_ H]. lia.
      * intros a. split; [by intros [= ->] | by intros [[= ->] _]].
  - pose proof (proj1 (next_queued_None h q) Hnext) as Hnone.
    assert ((count_status Queued h q =? 0)%nat = true) as ->.
    { apply Nat.eqb_eq. by apply count_status_zero. }
    split; [|split].
    + done.
    + split; [done|]. intros [(a & Ha & Hq) _]. by destruct (Hnone a Ha).
    + intros a. split; [done|]. by intros [[=] _].
Qed.

Lemma next_queued_filter (P : addr -> bool) (h : list job) (q : list addr) :
  (forall a, has_status Queued h a = true -> P a = true) ->
  next_queued h (filter (fun a => P a = true) q) = next_queued h q.
Proof.
  intros HP. induction q as [|b q IH]; [done|].
  rewrite filter_cons. simpl. destruct (has_status Queued h b) eqn:E.
  - rewrite decide_True by (by apply HP). simpl. by rewrite E.
  - destruct (decide (P b = true)); [simpl; by rewrite E|done].
Qed.

Lemma count_status_filter (v : job_status) (P : addr -> bool) (h : list job)
    (q : list addr) :
  (forall a, has_status v h a = true -> P a = true) ->
  count_status v h (filter (fun a => P a = true) q) = count_status v h q.
Proof.
  intros HP. induction q as [|b q IH]; [done|].
  rewrite filter_cons, count_status_cons.
  destruct (decide (P b = true)) as [Hb|Hb].
  - by rewrite count_status_cons, IH.
  - destruct (has_status v h b) eqn:E; [by destruct Hb; apply HP|].
    by rewrite IH.
Qed.

(** X18.  [api_queue_clear] removes the completed and the failed jobs from the
    queue and keeps the others in their order; a pass of [process_queue]
    decides the same on the queue before and after it. *)
Theorem api_queue_clear_keeps_schedule (h : list job) (q : list addr) :
  (forall a, a ∈ api_queue_clear h q <->
     a ∈ q /\ status_at h a <> Some Completed /\
     status_at h a <> Some Failed) /\
  api_queue_clear h q `sublist_of` q /\
  (forall max_concurrent,
     process_queue_check max_concurrent h (api_queue_clear h q)
     = process_queue_check max_concurrent h q).
Proof.
  split; [|split].
  - intros a. unfold api_queue_clear. rewrite list_elem_of_filter.
    split.
    + intros [[Hc Hf] Ha]. split; [done|]. split; intros H;
        apply has_status_true in H; congruence.
    + intros (Ha & Hc & Hf). split; [|done].
      split; apply not_true_is_false; intros H; apply has_status_true in H;
        done.
  - apply sublist_filter.
  - intros n.
    set (P := fun a => negb (has_status Completed h a) &&
                       negb (has_status Failed h a)).
    assert (api_queue_clear h q = filter (fun a => P a = true) q) as ->.
    { unfold api_queue_clear. apply list_filter_iff. intros a. unfold P.
      rewrite andb_true_iff, !negb_true_iff. done. }
    assert (forall v, v <> Completed -> v <> Failed ->
              forall a, has_status v h a = true -> P a = true) as HP.
    { intros v Hc Hf a Ha. apply has_status_true in Ha. unfold P.
      apply andb_true_iff. split; apply negb_true_iff, not_true_is_false;
        intros H; apply has_status_true in H; congruence. }
    unfold process_queue_check.
    rewrite next_queued_filter by (by apply HP).
    rewrite !count_status_filter by (by apply HP). done.
Qed.

End QueueCalls.

(** ** Threads and jobs *)

Section Threads.
Import Queue Examples.

Lemma step_no_admission (e : event) (s s' : sys) :
  no_live_drain s -> starts_process_queue e = false ->
  step e s = Some s' ->
  no_live_drain s' /\
  forall a, status_at (heap s') a = Some Active ->
            status_at (heap s) a = Some Active.
Proof.
  intros Hidle He H.
  destruct e; try discriminate He; step_cases H; simpl;
    try (match goal with
         | Hd : drains s !! _ = Some _ |- _ =>
             apply Hidle in Hd; discriminate Hd
         end);
    try (split; [exact Hidle | done]).
  - (* a Telegram handler *)
    split; [exact Hidle|]. intros a. unfold status_at.
    destruct (decide (a < length (heap s))) as [Hlt|Hge].
    + by rewrite lookup_app_l.
    + rewrite lookup_app_r by lia.
      by destruct (a - length (heap s)) as [|k].
  - (* a step of a runner *)
    split; [exact Hidle|]. intros a.
    match goal with
    | Hj : heap s !! _ = Some ?j, Hr : runner_step _ _ ?j = Some _ |- _ =>
        rewrite status_at_insert by (by apply lookup_lt_Some in Hj);
        destruct (decide (r_job r = a)) as [<-|]; [|done];
        intros [= Hs]; unfold status_at; rewrite Hj; simpl;
        by rewrite (runner_step_not_active _ _ _ _ _ _ Hr Hs)
    end.
  - (* pause *)
    split; [exact Hidle|]. intros a.
    match goal with
    | Hp : api_queue_pause _ _ _ = Some _ |- _ =>
        unfold api_queue_pause in Hp;
        destruct (find_job _ (heap s) (download_queue s)) as [a0|]; [|done];
        injection Hp as <- _
    end.
    rewrite status_at_update. destruct (decide (a0 = a)); [|done].
    by destruct (heap s !! a).
Qed.

(** X19.  The Telegram handlers append a job and start no thread.  While no
    [process_queue] thread is alive and neither [add_to_queue] nor
    [api_queue_resume] is called, none is started and no job becomes
    active: the jobs that are active afterwards were active before. *)
Theorem no_thread_no_admission (evs : list event) (s s' : sys) :
  no_live_drain s ->
  Forall (fun e => starts_process_queue e = false) evs ->
  run evs s = Some s' ->
  no_live_drain s' /\
  forall a, status_at (heap s') a = Some Active ->
            status_at (heap s) a = Some Active.
Proof.
  revert s. induction evs as [|e evs IH]; intros s Hidle Hevs; simpl.
  - by intros [= <-].
  - apply Forall_cons in Hevs as [He Hevs].
    destruct (step e s) as [s1|] eqn:Hstep; [|done]. intros Hrun.
    destruct (step_no_admission e s s1 Hidle He Hstep) as [Hidle1 Hact1].
    destruct (IH s1 Hidle1 Hevs Hrun) as [Hidle' Hact'].
    split; [done|]. intros a Ha. by apply Hact1, Hact'.
Qed.

(** Two jobs queued from Telegram on a fresh engine are not started. *)
Lemma no_thread_no_admission_telegram :
  exists s',
    run [ EvTelegramQueue "tiktok_alice_1767225600" "alice" "tiktok";
          EvTelegramQueue "instagram_bob_1767225601" "bob" "instagram" ]
      (init_sys (Some 2%Z)) = Some s' /\
    download_queue s' = [0; 1] /\
    no_live_drain s' /\
    forall a, status_at (heap s') a = Some Active ->
              status_at (heap (init_sys (Some 2%Z))) a = Some Active.
Proof.
  eexists. split; [reflexivity|]. split; [reflexivity|].
  apply (no_thread_no_admission
           [ EvTelegramQueue "tiktok_alice_1767225600" "alice" "tiktok";
             EvTelegramQueue "instagram_bob_1767225601" "bob" "instagram" ]
           (init_sys (Some 2%Z))).
  - intros tid d H. simpl in H. by rewrite lookup_nil in H.
  - repeat constructor.
  - reflexivity.
Defined.

(** *** Job ids *)

Lemma parse_line_keeps (line : string) (fc : nat) (j : job) :
  id (parse_line line fc j).2 = id j /\
  started_at (parse_line line fc j).2 = started_at j.
Proof.
  unfold parse_line.
  repeat (match goal with |- context [if ?b then _ else _] => destruct b end);
    done.
Qed.

(** A runner writes neither the id of its job nor [started_at]. *)
Lemma runner_step_keeps (i : rinput) (pc pc' : runner_pc) (j j' : job)
    (effs : list effect) :
  runner_step i pc j = Some (pc', j', effs) ->
  id j' = id j /\ started_at j' = started_at j.
Proof.
  destruct pc as [|fc la pid|fc|]; destruct i; simpl; try discriminate;
    try (by intros [= <- <- <-]).
  - destruct (bool_decide (status j = Paused)); [by intros [= <- <- <-]|].
    destruct (0 <? PyStr.len (PyStr.strip line))%nat.
    + pose proof (parse_line_keeps (PyStr.strip line) fc j) as [Hi Hs].
      destruct (parse_line (PyStr.strip line) fc j) as [fc' j1]. simpl in *.
      destruct (_ <? _)%Z; by intros [= <- <- <-].
    + destruct (_ <? _)%Z; by intros [= <- <- <-].
  - destruct (returncode =? 0)%Z; [destruct sync_error|];
      by intros [= <- <- <-].
  - unfold run_finally. simpl.
    destruct (status j); simpl;
      [| | |destruct fc as [n|]; [destruct (0 <? n)%nat|] |];
      by intros [= <- <- <-].
Qed.








End Threads.

(** ** Start times *)

Section StartTimes.
Import Queue Examples.

Lemma started_heap_write (h h' : list job) (ds : list drain_pc)
    (rs : list runner) :
  started_inv_of h ds rs -> length h' = length h ->
  (forall a j', h' !! a = Some j' ->
     h !! a = Some j' \/ is_Some (started_at j')) ->
  started_inv_of h' ds rs.
Proof.
  intros (Hh & Hr & Hd & Hm) Hlen Hw.
  assert (forall a j, h !! a = Some j -> is_Some (started_at j) ->
            exists j', h' !! a = Some j' /\ is_Some (started_at j')) as Hkeep.
  { intros a j Hj Hs.
    destruct (lookup_lt_is_Some_2 h' a) as [j' Hj'].
    { rewrite Hlen. by apply lookup_lt_Some in Hj. }
    exists j'. split; [done|].
    destruct (Hw a j' Hj') as [Hold|Hnew]; [|done]. congruence. }
  split; [|split; [|split]].
  - intros a j' Hj' Ht. destruct (Hw a j' Hj') as [Hold|Hnew]; [|done].
    by apply (Hh a).
  - intros tid r Hrs. destruct (Hr tid r Hrs) as (j & Hj & Hs).
    by apply (Hkeep _ j).
  - intros tid n a Hds. destruct (Hd tid n a Hds) as (j & Hj & Hs).
    by apply (Hkeep _ j).
  - intros tid n a Hds. rewrite Hlen. by apply (Hm tid n a).
Qed.

Lemma started_append (h : list job) (ds : list drain_pc) (rs : list runner)
    (u p msg : string) (i : job_id) (url folder : option string) :
  started_inv_of h ds rs ->
  started_inv_of (h ++ [new_job i u p url folder msg]) ds rs.
Proof.
  intros (Hh & Hr & Hd & Hm). split; [|split; [|split]].
  - intros a j [Hj|[_ Hj]]%lookup_app_Some; [by apply (Hh a)|].
    apply list_lookup_singleton_Some in Hj as [_ <-].
    intros [H|[[x H]|[x H]]]; done.
  - intros tid r Hrs. destruct (Hr tid r Hrs) as (j & Hj & Hs).
    exists j. split; [|done]. by apply lookup_app_l_Some.
  - intros tid n a Hds. destruct (Hd tid n a Hds) as (j & Hj & Hs).
    exists j. split; [|done]. by apply lookup_app_l_Some.
  - intros tid n a Hds. rewrite length_app. specialize (Hm tid n a Hds). lia.
Qed.

Lemma started_drain_insert (h : list job) (ds : list drain_pc)
    (rs : list runner) (tid : nat) (d : drain_pc) :
  started_inv_of h ds rs ->
  match d with
  | DDispatch _ a => exists j, h !! a = Some j /\ is_Some (started_at j)
  | DMark _ a => a < length h
  | _ => True
  end ->
  started_inv_of h (<[tid := d]> ds) rs.
Proof.
  intros (Hh & Hr & Hd & Hm) Hnew. split; [done|]. split; [done|]. split.
  - intros tid' n a [(_ & -> & _)|[_ Hds]]%list_lookup_insert_Some; [done|].
    by apply (Hd tid' n a).
  - intros tid' n a [(_ & -> & _)|[_ Hds]]%list_lookup_insert_Some; [done|].
    by apply (Hm tid' n a).
Qed.

Lemma started_drain_spawn (h : list job) (ds : list drain_pc)
    (rs : list runner) :
  started_inv_of h ds rs -> started_inv_of h (ds ++ [DInit]) rs.
Proof.
  intros (Hh & Hr & Hd & Hm). split; [done|]. split; [done|]. split.
  - intros tid n a [H|[=]]%drains_spawn. by apply (Hd tid n a).
  - intros tid n a [H|[=]]%drains_spawn. by apply (Hm tid n a).
Qed.

Lemma started_runner_spawn (h : list job) (ds : list drain_pc)
    (rs : list runner) (a : addr) (pc : runner_pc) :
  started_inv_of h ds rs ->
  (exists j, h !! a = Some j /\ is_Some (started_at j)) ->
  started_inv_of h ds (rs ++ [{| r_job := a; r_pc := pc |}]).
Proof.
  intros (Hh & Hr & Hd & Hm) Hnew. split; [done|]. split; [|done].
  intros tid r [H|[_ H]]%lookup_app_Some; [by apply (Hr tid)|].
  by apply list_lookup_singleton_Some in H as [_ <-].
Qed.

Lemma started_runner_insert (h : list job) (ds : list drain_pc)
    (rs : list runner) (tid : nat) (r : runner) (pc : runner_pc) :
  started_inv_of h ds rs -> rs !! tid = Some r ->
  started_inv_of h ds (<[tid := {| r_job := r_job r; r_pc := pc |}]> rs).
Proof.
  intros (Hh & Hr & Hd & Hm) Hrs. split; [done|]. split; [|done].
  intros tid' r' [(-> & <- & _)|[_ H]]%list_lookup_insert_Some;
    [by apply (Hr tid' r) | by apply (Hr tid')].
Qed.

Lemma started_update (h : list job) (a : addr) (f : job -> job) :
  (forall j, h !! a = Some j -> is_Some (started_at (f j))) ->
  forall a' j', update a f h !! a' = Some j' ->
    h !! a' = Some j' \/ is_Some (started_at j').
Proof.
  intros Hf a' j'. rewrite update_lookup.
  destruct (decide (a = a')) as [<-|]; [|by left].
  destruct (h !! a) as [j|] eqn:Hj; [|done]. simpl. intros [= <-].
  right. by apply Hf.
Qed.

Lemma step_started_inv (e : event) (s s' : sys) :
  step e s = Some s' -> started_inv s -> started_inv s'.
Proof.
  intros H Hinv. unfold started_inv in *.
  destruct e; step_cases H; simpl; try exact Hinv.
  - (* add_to_queue *)
    by apply started_drain_spawn, started_append.
  - (* a Telegram handler *)
    by apply started_append.
  - (* the setting is read *)
    by apply started_drain_insert.
  - by apply started_drain_insert.
  - (* the tests of a pass let the thread through *)
    apply started_drain_insert; [done|].
    match goal with
    | Hc : process_queue_check _ _ _ = Admit _ |- _ =>
        apply process_queue_check_admit in Hc as [_ Hn];
        apply next_queued_first in Hn as (_ & _ & _ & _ & Hn)
    end.
    unfold status_at in Hn.
    destruct (heap s !! next_job) as [j|] eqn:Hj; [|done].
    by apply lookup_lt_Some in Hj.
  - by apply started_drain_insert.
  - (* the writes on next_job *)
    assert (next_job < length (heap s)) as Hlt.
    { destruct Hinv as (_ & _ & _ & Hm). by eapply Hm. }
    destruct (lookup_lt_is_Some_2 _ _ Hlt) as [j Hj].
    apply started_drain_insert.
    + apply (started_heap_write (heap s)); [done | apply update_length|].
      apply started_update. intros j0 _. by eexists.
    + exists (mark_active now j). split; [|by eexists].
      rewrite update_lookup, decide_True by done. unfold addr in *.
      by rewrite Hj.
  - (* the runner thread is started *)
    apply started_runner_spawn; [by apply started_drain_insert|].
    destruct Hinv as (_ & _ & Hd & _). by eapply Hd.
  - (* a step of a runner *)
    match goal with
    | Hrs : runners s !! _ = Some ?r, Hj : heap s !! _ = Some ?j,
      Hr : runner_step _ _ ?j = Some _ |- _ =>
        apply started_runner_insert; [|exact Hrs];
        apply (started_heap_write (heap s));
          [done | apply length_insert |];
        pose proof (proj2 (runner_step_keeps _ _ _ _ _ _ Hr)) as Hk;
        destruct Hinv as (_ & Hrun & _);
        destruct (Hrun _ _ Hrs) as (j1 & Hj1 & Hs1);
        intros a j' Ha;
        apply list_lookup_insert_Some in Ha as [(_ & <- & _)|[_ Ha]];
          [right; rewrite Hk; congruence | by left]
    end.
  - (* pause *)
    match goal with
    | Hp : api_queue_pause _ _ _ = Some _ |- _ =>
        unfold api_queue_pause in Hp;
        destruct (find_job _ (heap s) (download_queue s)) as [a0|] eqn:Hfind;
          [|done];
        injection Hp as <- _
    end.
    apply (started_heap_write (heap s)); [done | apply update_length|].
    apply started_update. intros j Hj. simpl.
    apply find_job_Some in Hfind as (_ & j0 & Hj0 & Hp).
    rewrite Hj in Hj0. injection Hj0 as <-.
    apply andb_true_iff in Hp as [_ Hs]. apply bool_decide_eq_true in Hs.
    destruct Hinv as (Hh & _). apply (Hh a0 j Hj). left. congruence.
  - (* resume *)
    match goal with
    | Hp : api_queue_resume _ _ _ = Some _ |- _ =>
        unfold api_queue_resume in Hp;
        destruct (find_job _ (heap s) (download_queue s)) as [a0|] eqn:Hfind;
          [|done];
        injection Hp as <-
    end.
    apply started_drain_spawn.
    apply (started_heap_write (heap s)); [done | apply update_length|].
    apply started_update. intros j Hj. simpl.
    apply find_job_Some in Hfind as (_ & j0 & Hj0 & Hp).
    rewrite Hj in Hj0. injection Hj0 as <-.
    apply andb_true_iff in Hp as [_ Hs]. apply bool_decide_eq_true in Hs.
    destruct Hinv as (Hh & _). apply (Hh a0 j Hj). left. congruence.
Qed.

Lemma run_started_inv (evs : list event) :
  forall s s', run evs s = Some s' -> started_inv s -> started_inv s'.
Proof.
  induction evs as [|e evs IH]; intros s s'; simpl.
  - by intros [= <-].
  - destruct (step e s) as [s1|] eqn:E; [|done].
    intros H Hinv. apply (IH s1); [done|]. by apply (step_started_inv e s).
Qed.

(** X21.  In every state that the engine can reach, a job whose status is not
    ['queued'], or that has a [completed_at] or a process handle, has its
    [started_at]: only a pass of [process_queue] makes a job active and it
    stamps the start, a runner is only started on a job so marked, and no
    write clears the stamp.  A resumed job is queued with the start time of
    its previous run. *)
Theorem touched_job_has_started_at (setting : option Z) (evs : list event)
    (s : sys) (a : addr) (j : job) :
  run evs (init_sys setting) = Some s ->
  heap s !! a = Some j ->
  status j <> Queued \/ is_Some (completed_at j) \/ is_Some (process j) ->
  is_Some (started_at j).
Proof.
  intros Hrun Hj Ht.
  assert (started_inv s) as (Hh & _).
  { apply (run_started_inv evs (init_sys setting) s Hrun).
    split; [|split; [|split]]; simpl.
    - intros a0 j0 H. by rewrite lookup_nil in H.
    - intros tid r H. by rewrite lookup_nil in H.
    - intros tid n a0 H. by rewrite lookup_nil in H.
    - intros tid n a0 H. by rewrite lookup_nil in H. }
  by apply (Hh a j).
Qed.

(** The job that was paused in [pause_resume_trace] and resumed. *)
Lemma touched_job_has_started_at_resumed :
  run pause_resume_trace (init_sys (Some 2%Z)) = Some resumed_state /\
  (status <$> heap resumed_state !! 0) = Some Queued /\
  is_Some (started_at (default bob_job (heap resumed_state !! 0))).
Proof.
  assert (run pause_resume_trace (init_sys (Some 2%Z)) = Some resumed_state)
    as Hrun by (vm_compute; reflexivity).
  split; [exact Hrun|]. split; [vm_compute; reflexivity|].
  apply (touched_job_has_started_at (Some 2%Z) pause_resume_trace
           resumed_state 0 _ Hrun).
  - vm_compute. reflexivity.
  - right. left. vm_compute. by eexists.
Defined.

End StartTimes.

(** ** Removal, and a pause that comes late *)

Section QueueEdges.
Import Queue Examples.

Lemma find_job_first (p : job -> bool) (h : list job) (q : list addr)
    (a : addr) :
  find_job p h q = Some a ->
  exists q1 q2 j,
    q = (q1 ++ a :: q2)%list /\ h !! a = Some j /\ p j = true /\
    forall b jb, b ∈ q1 -> h !! b = Some jb -> p jb = false.
Proof.
  induction q as [|c q IH]; simpl; [done|].
  assert (find_job p h q = Some a ->
          (forall jc, h !! c = Some jc -> p jc = false) ->
          exists q1 q2 j,
            (c :: q = q1 ++ a :: q2)%list /\ h !! a = Some j /\ p j = true /\
            forall b jb, b ∈ q1 -> h !! b = Some jb -> p jb = false) as Hrec.
  { intros H Hc. destruct (IH H) as (q1 & q2 & j & -> & Hj & Hp & Hq1).
    exists (c :: q1), q2, j. split; [done|]. split; [done|]. split; [done|].
    intros b jb [->|Hb]%elem_of_cons Hjb; [by apply Hc | by apply (Hq1 b)]. }
  destruct (h !! c) as [jc|] eqn:Hc.
  - destruct (p jc) eqn:Hp.
    + intros [= <-]. exists [], q, jc. split; [done|]. split; [done|].
      split; [done|]. intros b jb Hb. by apply elem_of_nil in Hb.
    + intros H. apply Hrec; [done|]. by intros jc' [= <-].
  - intros H. by apply Hrec.
Qed.

Lemma remove_first_middle (a : addr) (q1 q2 : list addr) :
  a ∉ q1 -> remove_first a (q1 ++ a :: q2) = (q1 ++ q2)%list.
Proof.
  induction q1 as [|c q1 IH]; simpl; intros Hnotin.
  - by rewrite bool_decide_eq_true_2.
  - apply not_elem_of_cons in Hnotin as [Hne Hnotin].
    rewrite bool_decide_eq_false_2 by done. by rewrite IH.
Qed.

(** X22.  When [api_queue_delete] succeeds, it has removed from the queue the
    first job with that id and nothing else, and it has terminated a
    process only if that job was active and held one; the job dict itself
    is not written.  When it answers 404, no job of the queue has the
    id. *)
Theorem api_queue_delete_removes_first (queue_id : Z) (h : list job)
    (q : list addr) :
  match api_queue_delete queue_id h q with
  | Some (q', effs) =>
      exists q1 a q2 j,
        q = (q1 ++ a :: q2)%list /\ q' = (q1 ++ q2)%list /\
        h !! a = Some j /\ id j = IdInt queue_id /\
        (forall b jb, b ∈ q1 -> h !! b = Some jb ->
           id jb <> IdInt queue_id) /\
        effs = match status j, process j with
               | Active, Some pid => [Terminate pid]
               | _, _ => []
               end
  | None =>
      forall a j, a ∈ q -> h !! a = Some j -> id j <> IdInt queue_id
  end.
Proof.
  unfold api_queue_delete.
  destruct (find_job _ h q) as [a|] eqn:Hfind.
  - apply find_job_first in Hfind as (q1 & q2 & j & -> & Hj & Hp & Hq1).
    apply bool_decide_eq_true in Hp.
    assert (forall b jb, b ∈ q1 -> h !! b = Some jb ->
              id jb <> IdInt queue_id) as Hbefore.
    { intros b jb Hb Hjb Hid. specialize (Hq1 b jb Hb Hjb). simpl in Hq1.
      by rewrite bool_decide_eq_true_2 in Hq1. }
    exists q1, a, q2, j. split; [done|]. split.
    { apply remove_first_middle. intros Ha. by apply (Hbefore a j). }
    split; [done|]. split; [done|]. split; [done|].
    rewrite Hj. unfold terminate_of.
    destruct (status j), (process j); done.
  - intros a j Ha Hj Hid.
    pose proof (find_job_None _ _ _ Hfind a j Ha Hj) as Hp. simpl in Hp.
    by rewrite bool_decide_eq_true_2 in Hp.
Qed.

(** X23.  The runner tests for ['paused'] only when it has read a line.  When
    the output of the subprocess of a paused job ends before another line
    is read, the runner writes ['completed'] or ['failed'] over ['paused'],
    as the exit code and the record of the last sync have it, and the
    queue keeps the job; [api_queue_resume] then finds no paused job at
    that place. *)
Theorem pause_is_lost_at_eof (s : sys) (tid : nat) (r : runner)
    (fc : nat) (la : Z) (pid : nat) (j : job) (returncode : Z)
    (sync_error : option string) :
  runners s !! tid = Some r ->
  r_pc r = RReading fc la pid ->
  heap s !! r_job r = Some j ->
  status j = Paused ->
  exists s' j',
    step (EvRunner tid (InEof returncode sync_error)) s = Some s' /\
    heap s' !! r_job r = Some j' /\
    download_queue s' = download_queue s /\
    runners s' !! tid
      = Some {| r_job := r_job r; r_pc := RFinally (Some fc) |} /\
    status j' = (if (returncode =? 0)%Z && bool_decide (sync_error = None)
                 then Completed else Failed) /\
    forall queue_id,
      find_job (fun j0 => bool_decide (id j0 = IdInt queue_id) &&
                          bool_decide (status j0 = Paused))
        (heap s') (download_queue s') <> Some (r_job r).
Proof.
  intros Hr Hpc Hj Hs.
  assert (exists j',
            runner_step (InEof returncode sync_error) (r_pc r) j
              = Some (RFinally (Some fc), j',
                      if (returncode =? 0)%Z && bool_decide (sync_error = None)
                      then [LastSync (username j) (platform j)] else []) /\
            status j' = (if (returncode =? 0)%Z &&
                            bool_decide (sync_error = None)
                         then Completed else Failed))
    as (j' & Hstep & Hs').
  { rewrite Hpc. simpl. destruct (returncode =? 0)%Z; simpl.
    - destruct sync_error as [msg|]; simpl; eauto.
    - eauto. }
  assert (r_job r < length (heap s)) as Hlt by (by apply lookup_lt_Some in Hj).
  eexists _, j'. split.
  { unfold step. rewrite Hr, Hj, Hstep. reflexivity. }
  simpl. split; [by apply list_lookup_insert_eq|]. split; [done|].
  split; [apply list_lookup_insert_eq; by apply lookup_lt_Some in Hr|].
  split; [done|]. intros queue_id Hfind.
  apply find_job_Some in Hfind as (_ & j0 & Hj0 & Hp).
  rewrite list_lookup_insert_eq in Hj0 by done. injection Hj0 as <-.
  apply andb_true_iff in Hp as [_ Hp]. apply bool_decide_eq_true in Hp.
  rewrite Hp in Hs'. by destruct (_ && _).
Qed.

(** The runner of [pause_resume_trace] after the pause, when the output
    ends with the exit code -15 instead of a third line. *)
Lemma pause_is_lost_at_eof_sigterm :
  exists s' j',
    step (EvRunner 0 (InEof (-15) None)) paused_before_line = Some s' /\
    heap s' !! 0 = Some j' /\
    download_queue s' = download_queue paused_before_line /\
    runners s' !! 0 = Some {| r_job := 0; r_pc := RFinally (Some 2) |} /\
    status j' = Failed /\
    forall queue_id,
      find_job (fun j0 => bool_decide (id j0 = IdInt queue_id) &&
                          bool_decide (status j0 = Paused))
        (heap s') (download_queue s') <> Some 0.
Proof.
  apply (pause_is_lost_at_eof paused_before_line 0
           {| r_job := 0; r_pc := RReading 2 2 7 |} 2 2%Z 7
           (default bob_job (heap paused_before_line !! 0)) (-15) None);
    vm_compute; reflexivity.
Defined.

End QueueEdges.

(** ** The files of a folder *)

Section FolderFiles.
Import PosixPath Gofile Examples.




End FolderFiles.
